(** * xdg-toplevel transaction instructions

    A shallow embedding of [src/view/xdg-shell/xdg-toplevel.hpp]: the common
    instruction class [xdg_instruction_t] and its five variants (tiled
    state, geometry, gravity, map, unmap), together with the properties of
    the locking discipline, of the configure-serial matcher and of the
    ready / cancel signalling.

    Conventions of the embedding.
    - A [uint32_t] is a [Z] in [0, 2^32); subtraction wraps explicitly.
    - An [int] is a [Z]; the [int] subtractions of [apply] wrap explicitly.
    - A [wlr_surface*] (and the [wlr_surface_base_t*] wrapping it) is a
      [positive]: only the identity of the pointer matters.
    - The two [std::map] members are [gmap]s.
    - Calls that leave the file (wlroots, the view, the transaction
      manager) are recorded, in order, in a log of [event]s; the values they
      return are read from the view.
    - Dereferencing a null [xdg_toplevel] is the fault [NullDeref]. *)

From Stdlib Require Import ZArith List Lia Bool String.
From stdpp Require Import gmap list.

Local Open Scope Z_scope.

(** ** Plain data *)

Definition uint32_max : Z := 4294967295.
Definition uint32_mod : Z := 4294967296.

(** Wrap-around of [uint32_t] arithmetic. *)
Definition wrap32 (z : Z) : Z := z mod uint32_mod.

(** Wrap-around of [int] arithmetic (32 bits, two's complement). *)
Definition wrap_int (z : Z) : Z := (z + 2147483648) mod uint32_mod - 2147483648.

Definition wlr_surface := positive.

Record wlr_box := mk_box {
  box_x : Z;
  box_y : Z;
  box_width : Z;
  box_height : Z
}.

(** [wf::geometry_t] is an alias of [wlr_box]. *)
Definition geometry_t := wlr_box.

Record dimensions_t := mk_dimensions {
  dim_width : Z;
  dim_height : Z
}.

Record decoration_margins_t := mk_margins {
  margin_left : Z;
  margin_right : Z;
  margin_bottom : Z;
  margin_top : Z
}.

(** [wf::gravity_t] is an enumeration declared outside this file; a value
    is kept as its integer code (the code itself logs [(int)g]). *)
Definition gravity_t := Z.

(** Modelled from the spec: [wf::dimensions] is not in this file; the
    "final size" is the width and height of the final box. *)
Definition dimensions (b : wlr_box) : dimensions_t :=
  mk_dimensions (box_width b) (box_height b).

(** Modelled from the spec: [wf::shrink_by_margins] is not in this file.
    The configure size is the target "shrunk by the margins": width and
    height lose the margins on their sides, and the origin moves inwards
    by the left and top margins. *)
Definition shrink_by_margins (g : geometry_t) (m : decoration_margins_t)
  : geometry_t :=
  mk_box (box_x g + margin_left m) (box_y g + margin_top m)
         (box_width g - (margin_left m + margin_right m))
         (box_height g - (margin_top m + margin_bottom m)).

(** Modelled from the spec: [wf::expand_with_margins] is not in this file.
    The final box is the surface geometry "expanded by the decoration
    margin" ("margin re-added"): the inverse of [shrink_by_margins]. *)
Definition expand_with_margins (g : geometry_t) (m : decoration_margins_t)
  : geometry_t :=
  mk_box (box_x g - margin_left m) (box_y g - margin_top m)
         (box_width g + (margin_left m + margin_right m))
         (box_height g + (margin_top m + margin_bottom m)).

(** ** The acknowledgment matcher

    The arithmetic of [check_ready], lines 61-78: [current] is the
    toplevel's [configure_serial], [target] the serial of the request. *)
Definition target_achieved (current target : Z) : bool :=
  let MAX := uint32_max in
  let achieved := false in
  let achieved :=
    if (target <=? current) && (wrap32 (current - target) <? MAX / 2)
    then true (* Case 1: serial did not wrap around MAX *)
    else achieved in
  let achieved :=
    if (current <? target) && (MAX / 2 <? wrap32 (target - current))
    then true (* Case 2: serial wrapped around MAX *)
    else achieved in
  (* 0 indicates no ACK from the client side *)
  achieved && (0 <? current).

(** ** The view

    The parts of [wayfire_xdg_view] (and of the wlroots objects behind it)
    that the instructions read or write. *)

Record wlr_xdg_surface := mk_xdg_surface {
  configure_serial : Z;
  xdg_geometry : wlr_box;          (* wlr_xdg_surface_get_geometry *)
  surface : wlr_surface
}.

Record wlr_xdg_toplevel := mk_xdg_toplevel {
  base : wlr_xdg_surface;
  server_pending_tiled : Z         (* server_pending.tiled *)
}.

Record view_state_t := mk_view_state {
  tiled_edges : Z;
  geometry : geometry_t;
  gravity : gravity_t;
  mapped : bool
}.

Record wayfire_xdg_view := mk_view {
  xdg_toplevel : option wlr_xdg_toplevel;       (* nullable pointer *)
  frame : option decoration_margins_t;          (* view_impl->frame, get_margins() *)
  pending : view_state_t;                       (* view_impl->pending *)
  state : view_state_t;                         (* view_impl->state *)
  view_geometry : geometry_t;                   (* view->geometry *)
  surfaces : list wlr_surface;                  (* enumeration of for_each_wlr_surface *)
  main_surface : option wlr_surface;            (* view->get_wlr_surface() *)
  get_size : dimensions_t;                      (* view->get_size() *)
  pending_seq : wlr_surface -> Z;               (* token wlr_surface_lock_pending returns *)
  scheduled_serial : Z                          (* serial a configure request returns *)
}.

Definition set_xdg_toplevel (t : option wlr_xdg_toplevel) (v : wayfire_xdg_view) :=
  mk_view t (frame v) (pending v) (state v) (view_geometry v) (surfaces v)
          (main_surface v) (get_size v) (pending_seq v) (scheduled_serial v).

Definition set_pending_state (p : view_state_t) (v : wayfire_xdg_view) :=
  mk_view (xdg_toplevel v) (frame v) p (state v) (view_geometry v) (surfaces v)
          (main_surface v) (get_size v) (pending_seq v) (scheduled_serial v).

Definition set_state (st : view_state_t) (v : wayfire_xdg_view) :=
  mk_view (xdg_toplevel v) (frame v) (pending v) st (view_geometry v) (surfaces v)
          (main_surface v) (get_size v) (pending_seq v) (scheduled_serial v).

Definition set_view_geometry (g : geometry_t) (v : wayfire_xdg_view) :=
  mk_view (xdg_toplevel v) (frame v) (pending v) (state v) g (surfaces v)
          (main_surface v) (get_size v) (pending_seq v) (scheduled_serial v).

Definition set_surfaces (l : list wlr_surface) (v : wayfire_xdg_view) :=
  mk_view (xdg_toplevel v) (frame v) (pending v) (state v) (view_geometry v) l
          (main_surface v) (get_size v) (pending_seq v) (scheduled_serial v).

Definition with_tiled_edges (e : Z) (s : view_state_t) :=
  mk_view_state e (geometry s) (gravity s) (mapped s).
Definition with_geometry (g : geometry_t) (s : view_state_t) :=
  mk_view_state (tiled_edges s) g (gravity s) (mapped s).
Definition with_gravity (g : gravity_t) (s : view_state_t) :=
  mk_view_state (tiled_edges s) (geometry s) g (mapped s).
Definition with_mapped (b : bool) (s : view_state_t) :=
  mk_view_state (tiled_edges s) (geometry s) (gravity s) b.

(** ** The log of outgoing calls *)

Inductive event :=
| ev_take_ref                                          (* view->take_ref() *)
| ev_unref                                             (* view->unref() *)
| ev_connect_kill                                      (* view->connect_signal(KILL_TX, &on_kill) *)
| ev_instruction_signal (name : string)                (* wf::txn::emit_instruction_signal(this, name) *)
| ev_view_signal (name : string) (data : dimensions_t) (* view->emit_signal(name, &data) *)
| ev_base_lock (s : wlr_surface)                       (* base->lock() *)
| ev_base_unlock (s : wlr_surface)                     (* base->unlock() *)
| ev_lock_pending (s : wlr_surface) (id : Z)           (* id = wlr_surface_lock_pending(s) *)
| ev_unlock_cached (s : wlr_surface) (id : Z)          (* wlr_surface_unlock_cached(s, id) *)
| ev_set_maximized (maximized : bool)                  (* wlr_xdg_toplevel_set_maximized *)
| ev_set_tiled (edges : Z)                             (* wlr_xdg_toplevel_set_tiled *)
| ev_set_size (w h : Z)                                (* wlr_xdg_toplevel_set_size *)
| ev_send_frame (s : wlr_surface)                      (* wf::surface_send_frame *)
| ev_damage                                            (* view->damage() *)
| ev_update_tiled_edges (old_edges : Z)                (* view->update_tiled_edges *)
| ev_map (s : option wlr_surface)                      (* view->map(view->get_wlr_surface()) *)
| ev_unmap.                                            (* view->unmap() *)

(** ** The instruction *)

Inductive payload :=
| xdg_view_state_t (desired_edges : Z)
| xdg_view_geometry_t (target : geometry_t)
                      (current_gravity : option gravity_t)  (* [None]: not yet assigned *)
                      (client_initiated : bool)
| xdg_view_gravity_t (g : gravity_t)
| xdg_view_map_t
| xdg_view_unmap_t.

Record xdg_instruction_t := mk_instruction {
  kind : payload;
  on_commit_callback : option Z;     (* the serial captured by the callback *)
  on_commit_connected : bool;
  held_locks : gmap wlr_surface Z;
  held_soft_locks : gmap wlr_surface bool;
  alive : bool                       (* false once the destructor has run *)
}.

(** A configuration: the instruction, its view, and the calls made so far. *)
Record cfg := mk_cfg {
  self : xdg_instruction_t;
  view : wayfire_xdg_view;
  log : list event
}.

Definition emit (e : event) (c : cfg) : cfg :=
  mk_cfg (self c) (view c) (log c ++ [e]).

Definition upd_view (f : wayfire_xdg_view -> wayfire_xdg_view) (c : cfg) : cfg :=
  mk_cfg (self c) (f (view c)) (log c).

Definition upd_self (f : xdg_instruction_t -> xdg_instruction_t) (c : cfg) : cfg :=
  mk_cfg (f (self c)) (view c) (log c).

Definition set_kind (k : payload) (i : xdg_instruction_t) :=
  mk_instruction k (on_commit_callback i) (on_commit_connected i)
                 (held_locks i) (held_soft_locks i) (alive i).
Definition set_callback (serial : Z) (i : xdg_instruction_t) :=
  mk_instruction (kind i) (Some serial) (on_commit_connected i)
                 (held_locks i) (held_soft_locks i) (alive i).
Definition set_connected (b : bool) (i : xdg_instruction_t) :=
  mk_instruction (kind i) (on_commit_callback i) b
                 (held_locks i) (held_soft_locks i) (alive i).
Definition set_held_locks (m : gmap wlr_surface Z) (i : xdg_instruction_t) :=
  mk_instruction (kind i) (on_commit_callback i) (on_commit_connected i)
                 m (held_soft_locks i) (alive i).
Definition set_held_soft_locks (m : gmap wlr_surface bool) (i : xdg_instruction_t) :=
  mk_instruction (kind i) (on_commit_callback i) (on_commit_connected i)
                 (held_locks i) m (alive i).
Definition set_alive (b : bool) (i : xdg_instruction_t) :=
  mk_instruction (kind i) (on_commit_callback i) (on_commit_connected i)
                 (held_locks i) (held_soft_locks i) b.

(** ** Faults *)

Inductive fault :=
| NullDeref        (* [view->xdg_toplevel->...] on a null [xdg_toplevel] *)
| Uninitialised    (* [current_gravity] read before [set_pending] wrote it *)
| UseAfterFree.    (* a method called on a destroyed instruction *)

Inductive result (A : Type) :=
| Ok (a : A)
| Crash (f : fault).
Arguments Ok {A} a.
Arguments Crash {A} f.

Definition bind {A B : Type} (r : result A) (k : A -> result B) : result B :=
  match r with
  | Ok a => k a
  | Crash f => Crash f
  end.

Notation "'let*' x ':=' r 'in' k" := (bind r (fun x => k))
  (at level 10, x name, r at level 100, k at level 200).

(** ** The surface tree lock manager (lines 118-156) *)

Definition for_each_wlr_surface (f : wlr_surface -> cfg -> cfg) (c : cfg) : cfg :=
  fold_left (fun acc s => f s acc) (surfaces (view c)) c.

Definition lock_tree : cfg -> cfg :=
  for_each_wlr_surface (fun b c =>
    let c := upd_self (fun i => set_held_soft_locks (<[b := true]> (held_soft_locks i)) i) c in
    emit (ev_base_lock b) c).

(** [held_soft_locks[base]] on a key that is absent inserts [false]. *)
Definition unlock_tree : cfg -> cfg :=
  for_each_wlr_surface (fun b c =>
    match held_soft_locks (self c) !! b with
    | Some true =>
        let c := upd_self (fun i => set_held_soft_locks (<[b := false]> (held_soft_locks i)) i) c in
        emit (ev_base_unlock b) c
    | Some false => c
    | None => upd_self (fun i => set_held_soft_locks (<[b := false]> (held_soft_locks i)) i) c
    end).

Definition lock_tree_wlr : cfg -> cfg :=
  for_each_wlr_surface (fun surf c =>
    let id := pending_seq (view c) surf in
    let c := emit (ev_lock_pending surf id) c in
    upd_self (fun i => set_held_locks (<[surf := id]> (held_locks i)) i) c).

(** The loop visits the entries of [held_locks] in the order of
    [map_to_list]; no property below depends on that order. *)
Definition unlock_tree_wlr (c : cfg) : cfg :=
  let c := fold_left (fun acc p => emit (ev_unlock_cached (fst p) (snd p)) acc)
                     (map_to_list (held_locks (self c))) c in
  upd_self (set_held_locks ∅) c.

(** ** The shared part of every instruction *)

(** The constructor of [xdg_instruction_t], lines 159-164. *)
Definition xdg_instruction_new (v : wayfire_xdg_view) (k : payload) : cfg :=
  let c := mk_cfg (mk_instruction k None false ∅ ∅ true) v [] in
  let c := emit ev_take_ref c in
  emit ev_connect_kill c.

(** [emit_final_size_and_ready], lines 101-116. *)
Definition emit_final_size_and_ready (c : cfg) : result cfg :=
  match xdg_toplevel (view c) with
  | None => Crash NullDeref
  | Some toplevel =>
      let box := xdg_geometry (base toplevel) in
      let box :=
        match frame (view c) with
        | Some margins => expand_with_margins box margins
        | None => box
        end in
      let c := emit (ev_view_signal "final-size" (dimensions box)) c in
      Ok (emit (ev_instruction_signal "ready") c)
  end.

(** [check_ready], lines 59-99. *)
Definition check_ready (target : Z) (c : cfg) : result (bool * cfg) :=
  match xdg_toplevel (view c) with
  | None => Crash NullDeref
  | Some toplevel =>
      let current := configure_serial (base toplevel) in
      if target_achieved current target then
        let c := upd_self (set_connected false) c in
        let c := lock_tree_wlr c in
        let* c := emit_final_size_and_ready c in
        Ok (true, c)
      else
        let c :=
          match main_surface (view c) with
          | Some s => emit (ev_send_frame s) c
          | None => c
          end in
        Ok (false, c)
  end.

(** The [on_kill] connection, lines 30-34. *)
Definition on_kill (c : cfg) : cfg :=
  let c := upd_self (set_connected false) c in
  emit (ev_instruction_signal "cancel") c.

(** The destructor, lines 41-45; the members' own destructors then
    disconnect [on_kill] and [on_commit]. *)
Definition xdg_instruction_delete (c : cfg) : cfg :=
  let c := unlock_tree_wlr c in
  let c := emit ev_unref c in
  upd_self (fun i => set_alive false (set_connected false i)) c.

Section Instructions.

(** Declared outside this file: the constant [wf::TILED_EDGES_ALL] and the
    function [wf::align_with_gravity]. *)
Variable TILED_EDGES_ALL : Z.
Variable align_with_gravity : geometry_t -> wlr_box -> gravity_t -> geometry_t.

(** ** The five variants *)

Definition new_xdg_view_state_t (v : wayfire_xdg_view) (tiled_edges : Z) : cfg :=
  xdg_instruction_new v (xdg_view_state_t tiled_edges).

Definition new_xdg_view_geometry_t (v : wayfire_xdg_view) (g : geometry_t)
    (client_initiated : bool) : cfg :=
  let c := xdg_instruction_new v (xdg_view_geometry_t g None client_initiated) in
  if client_initiated then
    (* Grab a lock now, otherwise, wlroots will do the commit *)
    lock_tree c
  else c.

Definition new_xdg_view_gravity_t (v : wayfire_xdg_view) (g : gravity_t) : cfg :=
  xdg_instruction_new v (xdg_view_gravity_t g).

Definition new_xdg_view_map_t (v : wayfire_xdg_view) : cfg :=
  xdg_instruction_new v xdg_view_map_t.

Definition new_xdg_view_unmap_t (v : wayfire_xdg_view) : cfg :=
  xdg_instruction_new v xdg_view_unmap_t.

(** [set_pending] of each variant. *)
Definition set_pending (c : cfg) : cfg :=
  match kind (self c) with
  | xdg_view_state_t desired_edges =>
      upd_view (fun v => set_pending_state (with_tiled_edges desired_edges (pending v)) v) c
  | xdg_view_geometry_t target _ client_initiated =>
      let g := gravity (pending (view c)) in
      let c := upd_self (set_kind (xdg_view_geometry_t target (Some g) client_initiated)) c in
      upd_view (fun v => set_pending_state (with_geometry target (pending v)) v) c
  | xdg_view_gravity_t g =>
      upd_view (fun v => set_pending_state (with_gravity g (pending v)) v) c
  | xdg_view_map_t =>
      upd_view (fun v => set_pending_state (with_mapped true (pending v)) v) c
  | xdg_view_unmap_t =>
      let c := upd_view (fun v => set_pending_state (with_mapped false (pending v)) v) c in
      (* The surface is about to be unmapped so we need to take a lock
         immediately. *)
      lock_tree_wlr c
  end.

(** [on_commit.set_callback(... check_ready(serial) ...); on_commit.connect(...)] *)
Definition arm_on_commit (serial : Z) (c : cfg) : cfg :=
  upd_self (fun i => set_connected true (set_callback serial i)) c.

(** [commit] of each variant. *)
Definition commit (c : cfg) : result cfg :=
  match kind (self c) with
  | xdg_view_state_t desired_edges =>
      let c := lock_tree c in
      match xdg_toplevel (view c) with
      | None => emit_final_size_and_ready c
      | Some toplevel =>
          if server_pending_tiled toplevel =? desired_edges then
            emit_final_size_and_ready c
          else
            let c := emit (ev_set_maximized (desired_edges =? TILED_EDGES_ALL)) c in
            let c := emit (ev_set_tiled desired_edges) c in
            let serial := scheduled_serial (view c) in
            let c := emit (ev_send_frame (surface (base toplevel))) c in
            Ok (arm_on_commit serial c)
      end
  | xdg_view_geometry_t target _ client_initiated =>
      let c := lock_tree c in
      match xdg_toplevel (view c) with
      | None => emit_final_size_and_ready c
      | Some toplevel =>
          if client_initiated then
            (* We have already grabbed a lock in the constructor. Just
               signal that we're ready and don't do anything else. *)
            emit_final_size_and_ready c
          else
            let cfg_geometry := target in
            let cfg_geometry :=
              match frame (view c) with
              | Some margins => shrink_by_margins cfg_geometry margins
              | None => cfg_geometry
              end in
            let c := emit (ev_set_size (box_width cfg_geometry) (box_height cfg_geometry)) c in
            let serial := scheduled_serial (view c) in
            let c := emit (ev_send_frame (surface (base toplevel))) c in
            Ok (arm_on_commit serial c)
      end
  | xdg_view_gravity_t _ => emit_final_size_and_ready c
  | xdg_view_map_t =>
      let c := lock_tree c in
      emit_final_size_and_ready c
  | xdg_view_unmap_t =>
      Ok (emit (ev_instruction_signal "ready") c)
  end.

(** [apply] of each variant. *)
Definition apply (c : cfg) : result cfg :=
  match kind (self c) with
  | xdg_view_state_t desired_edges =>
      let c := unlock_tree c in
      let old_edges := tiled_edges (state (view c)) in
      let c := upd_view (fun v => set_state (with_tiled_edges desired_edges (state v)) v) c in
      Ok (emit (ev_update_tiled_edges old_edges) c)
  | xdg_view_geometry_t target current_gravity client_initiated =>
      let c := emit ev_damage c in
      let c := unlock_tree c in
      match xdg_toplevel (view c) with
      | None => Crash NullDeref
      | Some toplevel =>
          let box := xdg_geometry (base toplevel) in
          let box :=
            match frame (view c) with
            | Some margins => expand_with_margins box margins
            | None => box
            end in
          match current_gravity with
          | None => Crash Uninitialised
          | Some gravity =>
              (* Adjust for gravity *)
              let target := align_with_gravity target box gravity in
              let c := upd_view (fun v => set_state (with_geometry target (state v)) v) c in
              (* Adjust output geometry for shadows and other parts of the surface *)
              let target :=
                mk_box (wrap_int (box_x target - box_x box))
                       (wrap_int (box_y target - box_y box))
                       (dim_width (get_size (view c))) (dim_height (get_size (view c))) in
              let c := upd_self (set_kind (xdg_view_geometry_t target current_gravity client_initiated)) c in
              let c := upd_view (set_view_geometry target) c in
              Ok (emit ev_damage c)
          end
      end
  | xdg_view_gravity_t g =>
      Ok (upd_view (fun v => set_state (with_gravity g (state v)) v) c)
  | xdg_view_map_t =>
      let c := upd_view (fun v => set_state (with_mapped true (state v)) v) c in
      let c := unlock_tree c in
      Ok (emit (ev_map (main_surface (view c))) c)
  | xdg_view_unmap_t =>
      let c := upd_view (fun v => set_state (with_mapped false (state v)) v) c in
      let c := unlock_tree_wlr c in
      Ok (emit ev_unmap c)
  end.

(** ** Driving an instruction

    What can happen to an instruction: the scheduler calls its three
    methods and finally destroys it, the client commits on the toplevel's
    surface, the view signals [KILL_TX], and the rest of the compositor
    changes the view in between. *)
Inductive op :=
| Stage                      (* set_pending() *)
| Request                    (* commit() *)
| Finalize                   (* apply() *)
| SurfaceCommit              (* the surface's commit event *)
| Kill                       (* the view's KILL_TX signal *)
| Destroy                    (* delete *)
| Env (f : wayfire_xdg_view -> wayfire_xdg_view).

Definition exec (o : op) (c : cfg) : result cfg :=
  match o with
  | Stage => if alive (self c) then Ok (set_pending c) else Crash UseAfterFree
  | Request => if alive (self c) then commit c else Crash UseAfterFree
  | Finalize => if alive (self c) then apply c else Crash UseAfterFree
  | SurfaceCommit =>
      if on_commit_connected (self c) then
        match on_commit_callback (self c) with
        | Some serial => let* r := check_ready serial c in Ok (snd r)
        | None => Ok c
        end
      else Ok c
  | Kill => if alive (self c) then Ok (on_kill c) else Ok c
  | Destroy => if alive (self c) then Ok (xdg_instruction_delete c) else Crash UseAfterFree
  | Env f => Ok (upd_view f c)
  end.

Fixpoint run (ops : list op) (c : cfg) : result cfg :=
  match ops with
  | [] => Ok c
  | o :: ops => let* c := exec o c in run ops c
  end.


(** ** Vocabulary of the properties *)

(** What the scheduler asks for when it creates an instruction. *)
Inductive change :=
| ChState (tiled_edges : Z)
| ChGeometry (g : geometry_t) (client_initiated : bool)
| ChGravity (g : gravity_t)
| ChMap
| ChUnmap.

Definition construct (v : wayfire_xdg_view) (ch : change) : cfg :=
  match ch with
  | ChState e => new_xdg_view_state_t v e
  | ChGeometry g ci => new_xdg_view_geometry_t v g ci
  | ChGravity g => new_xdg_view_gravity_t v g
  | ChMap => new_xdg_view_map_t v
  | ChUnmap => new_xdg_view_unmap_t v
  end.

Definition is_unmap (k : payload) : bool :=
  match k with xdg_view_unmap_t => true | _ => false end.

Definition is_geometry (k : payload) : bool :=
  match k with xdg_view_geometry_t _ _ _ => true | _ => false end.

(** Variants whose [commit] never touches the soft locks. *)
Definition lock_free (k : payload) : bool :=
  match k with xdg_view_gravity_t _ | xdg_view_unmap_t => true | _ => false end.

(** The box [emit_final_size_and_ready] computes from a live toplevel. *)
Definition final_box (v : wayfire_xdg_view) (toplevel : wlr_xdg_toplevel) : wlr_box :=
  match frame v with
  | Some margins => expand_with_margins (xdg_geometry (base toplevel)) margins
  | None => xdg_geometry (base toplevel)
  end.

Definition final_size_event (v : wayfire_xdg_view) (toplevel : wlr_xdg_toplevel) : event :=
  ev_view_signal "final-size" (dimensions (final_box v toplevel)).

Definition ready_event : event := ev_instruction_signal "ready".
Definition cancel_event : event := ev_instruction_signal "cancel".

(** Classifiers of events. *)
Definition is_ready (e : event) : bool :=
  match e with ev_instruction_signal n => String.eqb n "ready" | _ => false end.
Definition is_cancel (e : event) : bool :=
  match e with ev_instruction_signal n => String.eqb n "cancel" | _ => false end.
Definition is_final_size (e : event) : bool :=
  match e with ev_view_signal n _ => String.eqb n "final-size" | _ => false end.
Definition is_base_lock (s : wlr_surface) (e : event) : bool :=
  match e with ev_base_lock s' => Pos.eqb s s' | _ => false end.
Definition is_base_unlock (s : wlr_surface) (e : event) : bool :=
  match e with ev_base_unlock s' => Pos.eqb s s' | _ => false end.
Definition is_lock_pending (s : wlr_surface) (e : event) : bool :=
  match e with ev_lock_pending s' _ => Pos.eqb s s' | _ => false end.
Definition is_unlock_cached (s : wlr_surface) (e : event) : bool :=
  match e with ev_unlock_cached s' _ => Pos.eqb s s' | _ => false end.
(** A protocol message to the client. *)
Definition is_configure (e : event) : bool :=
  match e with
  | ev_set_maximized _ | ev_set_tiled _ | ev_set_size _ _ => true
  | _ => false
  end.

Fixpoint count_ev (p : event -> bool) (l : list event) : nat :=
  match l with
  | [] => O
  | e :: l => if p e then S (count_ev p l) else count_ev p l
  end.

(** Locks taken and not given back, as the surface sees them. *)
Definition hard_outstanding (s : wlr_surface) (l : list event) : Z :=
  Z.of_nat (count_ev (is_lock_pending s) l) - Z.of_nat (count_ev (is_unlock_cached s) l).
Definition soft_outstanding (s : wlr_surface) (l : list event) : Z :=
  Z.of_nat (count_ev (is_base_lock s) l) - Z.of_nat (count_ev (is_base_unlock s) l).

(** No lock is held: nothing outstanding on any surface, and nothing
    recorded in the instruction. *)
Definition no_lock_held (c : cfg) : Prop :=
  (forall s, hard_outstanding s (log c) = 0) /\
  (forall s, soft_outstanding s (log c) = 0) /\
  held_locks (self c) = ∅ /\
  (forall s, held_soft_locks (self c) !! s <> Some true).

(** Every [ready] in the log comes directly after a [final-size]. *)
Definition ready_follows_final_size (l : list event) : Prop :=
  forall l1 l2, l = l1 ++ ready_event :: l2 ->
    exists l0 d, l1 = l0 ++ [ev_view_signal "final-size" d].

(** *** The order of the phases

    The scheduler stages, requests, finalizes and destroys, each once and
    in this order; the view may be killed after staging and before
    finalizing, and then the instruction is only destroyed.  Commits of the
    client and changes of the view can come at any time. *)
Inductive phase := Created | Staged | Requested | Finalized | Cancelled | Destroyed.

Definition next_phase (p : phase) (o : op) : option phase :=
  match o, p with
  | Env _, _ => Some p
  | SurfaceCommit, _ => Some p
  | Stage, Created => Some Staged
  | Request, Staged => Some Requested
  | Finalize, Requested => Some Finalized
  | Kill, Staged => Some Cancelled
  | Kill, Requested => Some Cancelled
  | Destroy, Finalized => Some Destroyed
  | Destroy, Cancelled => Some Destroyed
  | _, _ => None
  end.

Fixpoint lifecycle (p : phase) (ops : list op) : option phase :=
  match ops with
  | [] => Some p
  | o :: ops =>
      match next_phase p o with
      | Some p' => lifecycle p' ops
      | None => None
      end
  end.

(** A surface tree lists each surface once, and the changes of the view
    keep it so. *)
Fixpoint trees_ok (ops : list op) : Prop :=
  match ops with
  | [] => True
  | Env f :: ops =>
      (forall v, NoDup (surfaces v) -> NoDup (surfaces (f v))) /\ trees_ok ops
  | _ :: ops => trees_ok ops
  end.

(** The client acknowledges [serial] with a surface of geometry [realized]. *)
Definition client_ack (serial : Z) (realized : wlr_box) (v : wayfire_xdg_view)
  : wayfire_xdg_view :=
  match xdg_toplevel v with
  | Some tl =>
      set_xdg_toplevel
        (Some (mk_xdg_toplevel
                 (mk_xdg_surface serial realized (surface (base tl)))
                 (server_pending_tiled tl))) v
  | None => v
  end.

(** *** Sample data *)

Definition sample_margins : decoration_margins_t := mk_margins 0 0 0 30.

Definition sample_toplevel : wlr_xdg_toplevel :=
  mk_xdg_toplevel (mk_xdg_surface 0 (mk_box 0 0 800 570) 1%positive) 0.

Definition sample_view : wayfire_xdg_view :=
  mk_view (Some sample_toplevel) (Some sample_margins)
          (mk_view_state 0 (mk_box 0 0 800 600) 0 true)
          (mk_view_state 0 (mk_box 0 0 800 600) 0 true)
          (mk_box 0 0 800 600)
          [1%positive; 2%positive] (Some 1%positive)
          (mk_dimensions 800 570) (fun _ => 7) 42.

(** A stand-in for [wf::align_with_gravity]: gravity 0 keeps the top-left
    corner of the wanted geometry, any other gravity keeps the bottom-right
    corner. *)
Definition sample_align (desired : geometry_t) (actual : wlr_box) (g : gravity_t)
  : geometry_t :=
  if g =? 0 then
    mk_box (box_x desired) (box_y desired) (box_width actual) (box_height actual)
  else
    mk_box (box_x desired + box_width desired - box_width actual)
           (box_y desired + box_height desired - box_height actual)
           (box_width actual) (box_height actual).

Definition sample_target : geometry_t := mk_box 100 100 400 300.

(** *** Invariants of a lifecycle *)

(** 1 when the map records the surface, 0 when it does not. *)
Definition recorded {A : Type} (m : gmap wlr_surface A) (s : wlr_surface) : nat :=
  match m !! s with Some _ => 1%nat | None => O end.

(** Every acquisition of a hard lock is either released or still recorded,
    once, in [held_locks]. *)
Definition hard_balanced (c : cfg) : Prop :=
  forall s,
    count_ev (is_lock_pending s) (log c) =
    (count_ev (is_unlock_cached s) (log c) + recorded (held_locks (self c)) s)%nat.

Definition hard_phase (p : phase) (c : cfg) : Prop :=
  match p with
  | Created =>
      held_locks (self c) = ∅ /\ on_commit_connected (self c) = false
  | Staged =>
      on_commit_connected (self c) = false /\
      (is_unmap (kind (self c)) = false -> held_locks (self c) = ∅)
  | Destroyed =>
      held_locks (self c) = ∅ /\ on_commit_connected (self c) = false
  | _ => True
  end.

Definition hard_inv (p : phase) (c : cfg) : Prop :=
  NoDup (surfaces (view c)) /\
  hard_balanced c /\
  (on_commit_connected (self c) = true -> held_locks (self c) = ∅) /\
  hard_phase p c.

(** The gravity and the unmap instruction never touch the soft locks. *)
Definition soft_inv (c : cfg) : Prop :=
  lock_free (kind (self c)) = true -> held_soft_locks (self c) = ∅.

(** [ready] is emitted at most once, only while [on_commit] is not armed
    any more, and (but for the unmap instruction) together with a
    [final-size]. *)
Definition ready_phase (p : phase) (c : cfg) : Prop :=
  match p with
  | Created | Staged =>
      on_commit_connected (self c) = false /\ count_ev is_ready (log c) = O
  | _ => True
  end.

Definition ready_inv (p : phase) (c : cfg) : Prop :=
  (count_ev is_ready (log c) <= 1)%nat /\
  (is_unmap (kind (self c)) = false ->
     count_ev is_final_size (log c) = count_ev is_ready (log c) /\
     ready_follows_final_size (log c)) /\
  (on_commit_connected (self c) = true -> count_ev is_ready (log c) = O) /\
  ready_phase p c.

(** *** Further vocabulary *)

(** 1 when the surface is flagged soft-locked, 0 when it is not. *)
Definition flagged (m : gmap wlr_surface bool) (s : wlr_surface) : nat :=
  match m !! s with Some true => 1%nat | _ => O end.

(** Any call of the two locking interfaces. *)
Definition is_lock_event (e : event) : bool :=
  match e with
  | ev_base_lock _ | ev_base_unlock _
  | ev_lock_pending _ _ | ev_unlock_cached _ _ => true
  | _ => false
  end.

(** The frame callback [check_ready] asks for when the serial is not
    reached yet. *)
Definition frame_hint (v : wayfire_xdg_view) : list event :=
  match main_surface v with
  | Some s => [ev_send_frame s]
  | None => []
  end.

(** Whether [commit] has to wait for the client: a tiling change to other
    edges than the pending ones, or a resize that the client did not
    initiate, on a live toplevel. *)
Definition needs_round_trip (k : payload) (v : wayfire_xdg_view) : bool :=
  match k, xdg_toplevel v with
  | xdg_view_state_t desired_edges, Some toplevel =>
      negb (server_pending_tiled toplevel =? desired_edges)
  | xdg_view_geometry_t _ _ client_initiated, Some _ => negb client_initiated
  | _, _ => false
  end.

(** The live state holds what the variant staged. *)
Definition staged_value_applied (k : payload) (v : wayfire_xdg_view) : Prop :=
  match k with
  | xdg_view_state_t desired_edges =>
      tiled_edges (state v) = desired_edges /\
      tiled_edges (pending v) = desired_edges
  | xdg_view_gravity_t g =>
      gravity (state v) = g /\ gravity (pending v) = g
  | xdg_view_map_t =>
      mapped (state v) = true /\ mapped (pending v) = true
  | xdg_view_unmap_t =>
      mapped (state v) = false /\ mapped (pending v) = false
  | xdg_view_geometry_t _ _ _ => True
  end.

(** The fields of the live state the variant does not write are the same
    in both views. *)
Definition other_fields_kept (k : payload) (v v' : wayfire_xdg_view) : Prop :=
  view_geometry v' = view_geometry v /\
  match k with
  | xdg_view_state_t _ =>
      geometry (state v') = geometry (state v) /\
      gravity (state v') = gravity (state v) /\
      mapped (state v') = mapped (state v)
  | xdg_view_gravity_t _ =>
      tiled_edges (state v') = tiled_edges (state v) /\
      geometry (state v') = geometry (state v) /\
      mapped (state v') = mapped (state v)
  | xdg_view_map_t | xdg_view_unmap_t =>
      tiled_edges (state v') = tiled_edges (state v) /\
      geometry (state v') = geometry (state v) /\
      gravity (state v') = gravity (state v)
  | xdg_view_geometry_t _ _ _ => True
  end.

(** *** Soft locks along a lifecycle *)

(** Whether the instruction locked the tree already in its constructor. *)
Definition client_initiated_change (ch : change) : bool :=
  match ch with
  | ChGeometry _ client_initiated => client_initiated
  | _ => false
  end.

(** The changes of the view leave the surface tree as it is. *)
Fixpoint trees_fixed (ops : list op) : Prop :=
  match ops with
  | [] => True
  | Env f :: ops => (forall v, surfaces (f v) = surfaces v) /\ trees_fixed ops
  | _ :: ops => trees_fixed ops
  end.

(** Every call of [lock()] is either matched by a call of [unlock()] or
    still flagged in [held_soft_locks]. *)
Definition soft_balanced (c : cfg) : Prop :=
  forall s,
    count_ev (is_base_lock s) (log c) =
    (count_ev (is_base_unlock s) (log c) + flagged (held_soft_locks (self c)) s)%nat.

Definition soft_phase (p : phase) (c : cfg) : Prop :=
  match p with
  | Created | Staged => held_soft_locks (self c) = ∅
  | _ => True
  end.

Definition soft_balance_inv (p : phase) (c : cfg) : Prop :=
  NoDup (surfaces (view c)) /\ soft_balanced c /\ soft_phase p c.

(** The flagged surfaces are surfaces of the tree. *)
Definition flags_in_tree (c : cfg) : Prop :=
  forall s, held_soft_locks (self c) !! s = Some true -> s ∈ surfaces (view c).


(** *** The lock manager in closed form

    What the four loops of the lock manager compute, as functions of the
    enumerated surfaces. *)

Definition soft_lock_all (l : list wlr_surface) (m : gmap wlr_surface bool)
  : gmap wlr_surface bool :=
  fold_left (fun acc s => <[s := true]> acc) l m.

Definition hard_lock_all (seq : wlr_surface -> Z) (l : list wlr_surface)
    (m : gmap wlr_surface Z) : gmap wlr_surface Z :=
  fold_left (fun acc s => <[s := seq s]> acc) l m.

Fixpoint soft_unlock_all (l : list wlr_surface) (m : gmap wlr_surface bool)
  : gmap wlr_surface bool * list event :=
  match l with
  | [] => (m, [])
  | s :: l =>
      match m !! s with
      | Some true =>
          let r := soft_unlock_all l (<[s := false]> m) in
          (fst r, ev_base_unlock s :: snd r)
      | Some false => soft_unlock_all l m
      | None => soft_unlock_all l (<[s := false]> m)
      end
  end.

(** * Properties *)

(* The loops of the lock manager are rewritten with their closed forms,
   never unfolded by simplification. *)
Arguments lock_tree : simpl never.
Arguments unlock_tree : simpl never.
Arguments lock_tree_wlr : simpl never.
Arguments unlock_tree_wlr : simpl never.
Arguments target_achieved : simpl never.
Arguments wrap_int : simpl never.
Arguments hard_lock_all : simpl never.
Arguments soft_lock_all : simpl never.


(** ** The matcher *)

Lemma wrap32_small (z : Z) : 0 <= z < uint32_mod -> wrap32 z = z.
Proof. intros H. unfold wrap32. now apply Z.mod_small. Qed.

Lemma target_achieved_spec (current target : Z) :
  0 <= current < uint32_mod ->
  0 <= target < uint32_mod ->
  target_achieved current target = true <->
  current <> 0 /\
  ((current >= target /\ current - target < uint32_max / 2) \/
   (target > current /\ target - current > uint32_max / 2)).
Proof.
  intros Hc Ht. unfold target_achieved.
  change (uint32_max / 2) with 2147483647.
  unfold uint32_mod in *.
  destruct (Z.leb_spec target current) as [Hle | Hlt].
  - rewrite (wrap32_small (current - target)) by (unfold uint32_mod; lia).
    assert ((current <? target) = false) as -> by (apply Z.ltb_ge; lia).
    cbn [andb].
    destruct (Z.ltb_spec (current - target) 2147483647);
      destruct (Z.ltb_spec 0 current); cbn; split; intros; try discriminate; lia.
  - assert ((current <? target) = true) as -> by (apply Z.ltb_lt; lia).
    rewrite (wrap32_small (target - current)) by (unfold uint32_mod; lia).
    cbn [andb].
    destruct (Z.ltb_spec 2147483647 (target - current));
      destruct (Z.ltb_spec 0 current); cbn; split; intros; try discriminate; lia.
Qed.

(** C3. For 32-bit [current] and [target] the matcher answers true exactly
    when [current] is not 0 and either [current >= target] with
    [current - target < MAX/2], or [target > current] with
    [target - current > MAX/2] (MAX = 2^32 - 1, the division is the
    integer one of the code).  In particular it is false for [current = 0],
    true for [target = current <> 0], true for [current = target + 1],
    true for [current = 5] and [target = MAX - 3], and false for
    [current = target - 1] (also when the subtraction wraps). *)
Theorem C3_acknowledgment_matcher (current target : Z) :
  0 <= current < 4294967296 ->
  0 <= target < 4294967296 ->
  (target_achieved current target = true <->
   current <> 0 /\
   ((current >= target /\ current - target < uint32_max / 2) \/
    (target > current /\ target - current > uint32_max / 2))) /\
  (current = 0 -> target_achieved current target = false) /\
  (current <> 0 -> target_achieved current current = true) /\
  (current = target + 1 -> target_achieved current target = true) /\
  target_achieved 5 (uint32_max - 3) = true /\
  (current = wrap32 (target - 1) -> target_achieved current target = false).
Proof.
  intros Hc Ht.
  pose proof (target_achieved_spec current target Hc Ht) as Hspec.
  change (uint32_max / 2) with 2147483647 in *.
  split; [exact Hspec |].
  split.
  { intros ->. apply not_true_is_false. intros H. apply Hspec in H. lia. }
  split.
  { intros Hnz. apply (target_achieved_spec current current Hc Hc).
    change (uint32_max / 2) with 2147483647. lia. }
  split.
  { intros ->. apply Hspec. lia. }
  split; [reflexivity |].
  intros Hcur. apply not_true_is_false. intros H. apply Hspec in H.
  destruct (Z.eq_dec target 0) as [-> | Hne].
  - change (wrap32 (0 - 1)) with 4294967295 in Hcur. lia.
  - rewrite wrap32_small in Hcur by (unfold uint32_mod; lia). lia.
Qed.

(** ** The lock manager in closed form *)

Lemma lock_tree_eq (c : cfg) :
  lock_tree c =
  mk_cfg (set_held_soft_locks
            (soft_lock_all (surfaces (view c)) (held_soft_locks (self c))) (self c))
         (view c)
         (log c ++ map ev_base_lock (surfaces (view c))).
Proof.
  unfold lock_tree, for_each_wlr_surface, soft_lock_all.
  generalize (surfaces (view c)) as l.
  destruct c as [i v lg]. cbn [self view log].
  intros l. revert i lg.
  induction l as [| s l IH]; intros i lg; cbn [fold_left map].
  - rewrite app_nil_r. destruct i; reflexivity.
  - unfold emit at 2, upd_self at 2. cbn [self view log].
    rewrite IH. destruct i; cbn. rewrite <- app_assoc. reflexivity.
Qed.

Lemma lock_tree_wlr_eq (c : cfg) :
  lock_tree_wlr c =
  mk_cfg (set_held_locks
            (hard_lock_all (pending_seq (view c)) (surfaces (view c))
                           (held_locks (self c))) (self c))
         (view c)
         (log c ++ map (fun s => ev_lock_pending s (pending_seq (view c) s))
                       (surfaces (view c))).
Proof.
  unfold lock_tree_wlr, for_each_wlr_surface, hard_lock_all.
  generalize (surfaces (view c)) as l.
  destruct c as [i v lg]. cbn [self view log].
  intros l. revert i lg.
  induction l as [| s l IH]; intros i lg; cbn [fold_left map].
  - rewrite app_nil_r. destruct i; reflexivity.
  - unfold emit at 2, upd_self at 2. cbn [self view log].
    rewrite IH. destruct i; cbn. rewrite <- app_assoc. reflexivity.
Qed.

Lemma unlock_tree_eq (c : cfg) :
  unlock_tree c =
  let r := soft_unlock_all (surfaces (view c)) (held_soft_locks (self c)) in
  mk_cfg (set_held_soft_locks (fst r) (self c)) (view c) (log c ++ snd r).
Proof.
  unfold unlock_tree, for_each_wlr_surface.
  generalize (surfaces (view c)) as l.
  destruct c as [i v lg]. cbn [self view log].
  intros l. revert i lg.
  induction l as [| s l IH]; intros i lg; cbn [fold_left soft_unlock_all].
  - cbn. rewrite app_nil_r. destruct i; reflexivity.
  - cbn [self view log].
    destruct (held_soft_locks i !! s) as [[|]|] eqn:E.
    + unfold emit, upd_self. cbn [self view log]. rewrite IH.
      destruct i; cbn. rewrite <- app_assoc. reflexivity.
    + rewrite IH. reflexivity.
    + unfold upd_self. cbn [self view log]. rewrite IH.
      destruct i; cbn. reflexivity.
Qed.

Lemma unlock_tree_wlr_eq (c : cfg) :
  unlock_tree_wlr c =
  mk_cfg (set_held_locks ∅ (self c)) (view c)
         (log c ++ map (fun p => ev_unlock_cached (fst p) (snd p))
                       (map_to_list (held_locks (self c)))).
Proof.
  unfold unlock_tree_wlr.
  generalize (map_to_list (held_locks (self c))) as l.
  destruct c as [i v lg]. cbn [self view log].
  intros l. revert lg.
  induction l as [| p l IH]; intros lg; cbn [fold_left map].
  - rewrite app_nil_r. reflexivity.
  - unfold emit at 2. cbn [self view log]. rewrite IH.
    rewrite <- app_assoc. reflexivity.
Qed.

Lemma hard_lock_all_keeps (seq : wlr_surface -> Z) (l : list wlr_surface)
    (m : gmap wlr_surface Z) (s : wlr_surface) :
  m !! s = Some (seq s) -> hard_lock_all seq l m !! s = Some (seq s).
Proof.
  unfold hard_lock_all. revert m.
  induction l as [| a l IH]; intros m H; cbn [fold_left]; [exact H |].
  apply IH. destruct (decide (a = s)) as [-> | Hne].
  - apply lookup_insert_eq.
  - rewrite lookup_insert_ne by exact Hne. exact H.
Qed.

Lemma hard_lock_all_In (seq : wlr_surface -> Z) (l : list wlr_surface)
    (m : gmap wlr_surface Z) (s : wlr_surface) :
  In s l -> hard_lock_all seq l m !! s = Some (seq s).
Proof.
  revert m. induction l as [| a l IH]; intros m Hin; [destruct Hin |].
  destruct Hin as [-> | Hin].
  - change (hard_lock_all seq (s :: l) m) with (hard_lock_all seq l (<[s := seq s]> m)).
    apply hard_lock_all_keeps, lookup_insert_eq.
  - change (hard_lock_all seq (a :: l) m) with (hard_lock_all seq l (<[a := seq a]> m)).
    now apply IH.
Qed.

Lemma count_ev_app (p : event -> bool) (l1 l2 : list event) :
  count_ev p (l1 ++ l2) = (count_ev p l1 + count_ev p l2)%nat.
Proof.
  induction l1 as [| e l1 IH]; cbn; [reflexivity |].
  destruct (p e); cbn; rewrite IH; reflexivity.
Qed.

Lemma count_ev_none (p : event -> bool) (l : list event) :
  Forall (fun e => p e = false) l -> count_ev p l = O.
Proof.
  induction 1 as [| e l He _ IH]; cbn; [reflexivity |].
  rewrite He. exact IH.
Qed.

Lemma count_ev_map_none {A : Type} (p : event -> bool) (f : A -> event) (l : list A) :
  (forall a, p (f a) = false) -> count_ev p (map f l) = O.
Proof.
  intros H. induction l as [| a l IH]; cbn; [reflexivity |].
  rewrite H. exact IH.
Qed.

(** Symbolic execution of the methods on a configuration whose fields are
    known. *)
Ltac exec_simpl :=
  repeat first
    [ progress cbn
    | progress unfold run, exec, bind, set_pending, commit, apply, check_ready,
        emit_final_size_and_ready, on_kill, xdg_instruction_delete,
        arm_on_commit, client_ack, emit, upd_view, upd_self
    | rewrite lock_tree_eq
    | rewrite unlock_tree_eq
    | rewrite lock_tree_wlr_eq
    | rewrite unlock_tree_wlr_eq ].

Ltac exec_simpl_in H :=
  repeat first
    [ progress cbn in H
    | progress unfold run, exec, bind, set_pending, commit, apply, check_ready,
        emit_final_size_and_ready, on_kill, xdg_instruction_delete,
        arm_on_commit, client_ack, emit, upd_view, upd_self in H
    | rewrite lock_tree_eq in H
    | rewrite unlock_tree_eq in H
    | rewrite lock_tree_wlr_eq in H
    | rewrite unlock_tree_wlr_eq in H ].

(** ** Unmap locks while staging *)

(** C7. The unmap instruction takes the hard locks in [set_pending]: when
    [stage()] has returned the record holds a token for every surface of
    the tree, and the only calls [stage()] made are the lock acquisitions;
    [request()], whatever happened to the view in between, only emits
    [ready] and leaves the instruction as it was. *)
Theorem C7_unmap_locks_in_stage (v : wayfire_xdg_view) :
  exists c1,
    exec Stage (new_xdg_view_unmap_t v) = Ok c1 /\
    Forall (fun s => held_locks (self c1) !! s = Some (pending_seq v s)) (surfaces v) /\
    log c1 = log (new_xdg_view_unmap_t v) ++
             map (fun s => ev_lock_pending s (pending_seq v s)) (surfaces v) /\
    mapped (pending (view c1)) = false /\
    forall f, exec Request (upd_view f c1) = Ok (emit ready_event (upd_view f c1)).
Proof.
  eexists. split; [reflexivity |].
  unfold set_pending. cbn [new_xdg_view_unmap_t xdg_instruction_new emit self kind view log].
  rewrite lock_tree_wlr_eq. cbn.
  split; [| split; [reflexivity | split; [reflexivity |]]].
  - apply Forall_forall. intros s Hs. apply hard_lock_all_In.
    apply list_elem_of_In. exact Hs.
  - intros f. reflexivity.
Qed.


(** ** The tiling no-op *)

(** C9. A tiling instruction whose wanted edges equal the toplevel's
    [server_pending.tiled] finalizes inside [request()]: after the soft
    locks it publishes [final-size] and emits [ready]; it sends no
    configure ([set_maximized], [set_tiled], [set_size]), no frame hint,
    and leaves [on_commit] disconnected. *)
Theorem C9_tiling_noop (v : wayfire_xdg_view) (toplevel : wlr_xdg_toplevel)
    (desired_edges : Z) :
  xdg_toplevel v = Some toplevel ->
  server_pending_tiled toplevel = desired_edges ->
  exists c,
    run [Stage; Request] (new_xdg_view_state_t v desired_edges) = Ok c /\
    log c = log (new_xdg_view_state_t v desired_edges) ++
            map ev_base_lock (surfaces v) ++
            [final_size_event v toplevel; ready_event] /\
    count_ev is_configure (log c) = O /\
    on_commit_connected (self c) = false /\
    on_commit_callback (self c) = None.
Proof.
  intros Htl Hsame.
  unfold run, exec, bind.
  cbn [new_xdg_view_state_t xdg_instruction_new emit self alive view log].
  unfold set_pending, commit.
  cbn [self kind upd_view view log].
  rewrite lock_tree_eq. cbn.
  rewrite Htl, Hsame, Z.eqb_refl.
  unfold emit_final_size_and_ready. cbn.
  rewrite Htl.
  eexists. split; [reflexivity |].
  cbn.
  split.
  { unfold final_size_event, final_box, ready_event.
    rewrite <- app_assoc. reflexivity. }
  split.
  { rewrite !count_ev_app.
    rewrite count_ev_map_none by reflexivity. reflexivity. }
  split; reflexivity.
Qed.

(** ** The resize round trip *)



(** ** A vanished protocol object *)

(** C8, evaluated on the code.  When [xdg_toplevel] is null at
    [request()], the geometry and the tiling instruction take the early
    branch and call [emit_final_size_and_ready], whose first statement
    reads [view->xdg_toplevel->base]: the call faults, and neither
    [final-size] nor [ready] is emitted. *)
Theorem C8_vanished_protocol_faults (v : wayfire_xdg_view) (g : geometry_t)
    (client_initiated : bool) (edges : Z) :
  let v0 := set_xdg_toplevel None v in
  run [Stage; Request] (new_xdg_view_geometry_t v0 g client_initiated)
    = Crash NullDeref /\
  run [Stage; Request] (new_xdg_view_state_t v0 edges) = Crash NullDeref.
Proof.
  split.
  - destruct client_initiated; exec_simpl; reflexivity.
  - exec_simpl. reflexivity.
Qed.

(** ** The precondition of the resize finalize *)

(** C10, evaluated on the code.  [apply] of the geometry instruction
    reads [view->xdg_toplevel->base] unguarded: on a staged, live
    instruction it faults when the protocol object is null and completes
    when it is not, so [finalize()] is safe only while the object is live.
    The early branch of [request()], however, does not bring a resize to
    [ready] when the object is null: it calls
    [emit_final_size_and_ready], which reads the object first and
    faults. *)
Theorem C10_finalize_needs_live_toplevel (c : cfg) (target : geometry_t)
    (g : gravity_t) (client_initiated : bool) :
  kind (self c) = xdg_view_geometry_t target (Some g) client_initiated ->
  alive (self c) = true ->
  (xdg_toplevel (view c) = None -> exec Finalize c = Crash NullDeref) /\
  (xdg_toplevel (view c) <> None -> exists c', exec Finalize c = Ok c') /\
  (forall v t ci,
     run [Stage; Request]
         (new_xdg_view_geometry_t (set_xdg_toplevel None v) t ci)
       = Crash NullDeref).
Proof.
  intros Hkind Halive.
  destruct c as [i v l]. cbn in Hkind, Halive.
  split; [| split].
  - intros Hnull. cbn in Hnull.
    unfold exec. cbn. rewrite Halive. unfold apply. cbn. rewrite Hkind.
    rewrite unlock_tree_eq. cbn. rewrite Hnull. reflexivity.
  - intros Hlive. cbn in Hlive.
    unfold exec. cbn. rewrite Halive. unfold apply. cbn. rewrite Hkind.
    rewrite unlock_tree_eq. cbn.
    destruct (xdg_toplevel v) as [tl |]; [| congruence].
    eexists. reflexivity.
  - intros v0 t ci. destruct ci; exec_simpl; reflexivity.
Qed.

(** ** Counting the calls of the lock manager *)

Lemma hard_lock_all_notin (seq : wlr_surface -> Z) (l : list wlr_surface)
    (m : gmap wlr_surface Z) (s : wlr_surface) :
  s ∉ l -> hard_lock_all seq l m !! s = m !! s.
Proof.
  unfold hard_lock_all. revert m.
  induction l as [| a l IH]; intros m Hnot; cbn [fold_left]; [reflexivity |].
  apply not_elem_of_cons in Hnot as [Hne Hnot].
  rewrite IH by exact Hnot. apply lookup_insert_ne. congruence.
Qed.

Lemma count_lock_pending_map (seq : wlr_surface -> Z) (l : list wlr_surface)
    (s : wlr_surface) :
  NoDup l ->
  count_ev (is_lock_pending s) (map (fun x => ev_lock_pending x (seq x)) l) =
  if decide (s ∈ l) then 1%nat else O.
Proof.
  induction 1 as [| a l Ha Hl IH]; cbn.
  - destruct (decide (s ∈ [])) as [H | H]; [inversion H | reflexivity].
  - rewrite IH. destruct (Pos.eqb_spec s a) as [-> | Hne].
    + destruct (decide (a ∈ l)); [contradiction |].
      destruct (decide (a ∈ a :: l)) as [_ | H]; [reflexivity |].
      exfalso. apply H. left.
    + destruct (decide (s ∈ l)) as [Hin | Hnin];
        destruct (decide (s ∈ a :: l)) as [Hin' | Hnin']; try reflexivity.
      * exfalso. apply Hnin'. now right.
      * apply elem_of_cons in Hin' as [-> | Hin']; contradiction.
Qed.

Lemma recorded_hard_lock_all (seq : wlr_surface -> Z) (l : list wlr_surface)
    (s : wlr_surface) :
  NoDup l ->
  recorded (hard_lock_all seq l ∅) s =
  count_ev (is_lock_pending s) (map (fun x => ev_lock_pending x (seq x)) l).
Proof.
  intros Hnd. rewrite count_lock_pending_map by exact Hnd. unfold recorded.
  destruct (decide (s ∈ l)) as [Hin | Hnin].
  - rewrite hard_lock_all_In by (apply list_elem_of_In; exact Hin). reflexivity.
  - rewrite hard_lock_all_notin by exact Hnin. rewrite lookup_empty. reflexivity.
Qed.

Lemma count_unlock_cached_pairs (l : list (wlr_surface * Z)) (s : wlr_surface) :
  NoDup l.*1 ->
  count_ev (is_unlock_cached s) (map (fun p => ev_unlock_cached (fst p) (snd p)) l) =
  if decide (s ∈ l.*1) then 1%nat else O.
Proof.
  induction l as [| [a z] l IH]; cbn; intros Hnd.
  - destruct (decide (s ∈ [])) as [H | H]; [inversion H | reflexivity].
  - apply NoDup_cons in Hnd as [Ha Hl]. rewrite IH by exact Hl.
    destruct (Pos.eqb_spec s a) as [-> | Hne].
    + destruct (decide (a ∈ l.*1)); [contradiction |].
      destruct (decide (a ∈ a :: l.*1)) as [_ | H]; [reflexivity |].
      exfalso. apply H. left.
    + destruct (decide (s ∈ l.*1)) as [Hin | Hnin];
        destruct (decide (s ∈ a :: l.*1)) as [Hin' | Hnin']; try reflexivity.
      * exfalso. apply Hnin'. now right.
      * apply elem_of_cons in Hin' as [-> | Hin']; contradiction.
Qed.

Lemma count_unlock_cached_map_to_list (m : gmap wlr_surface Z) (s : wlr_surface) :
  count_ev (is_unlock_cached s)
           (map (fun p => ev_unlock_cached (fst p) (snd p)) (map_to_list m)) =
  recorded m s.
Proof.
  rewrite count_unlock_cached_pairs by apply NoDup_fst_map_to_list.
  unfold recorded.
  destruct (decide (s ∈ (map_to_list m).*1)) as [Hin | Hnin].
  - apply list_elem_of_fmap in Hin as [[a z] [-> Hin]].
    apply elem_of_map_to_list in Hin. cbn. rewrite Hin. reflexivity.
  - destruct (m !! s) as [z |] eqn:E; [| reflexivity].
    exfalso. apply Hnin. apply list_elem_of_fmap. exists (s, z).
    split; [reflexivity |]. now apply elem_of_map_to_list.
Qed.

Lemma soft_unlock_all_events (l : list wlr_surface) (m : gmap wlr_surface bool) :
  Forall (fun e => exists s, e = ev_base_unlock s) (snd (soft_unlock_all l m)).
Proof.
  revert m. induction l as [| a l IH]; intros m; cbn; [constructor |].
  destruct (m !! a) as [[|]|]; cbn; auto.
  constructor; [eauto | apply IH].
Qed.

Lemma count_ev_soft_unlock_none (p : event -> bool) (l : list wlr_surface)
    (m : gmap wlr_surface bool) :
  (forall s, p (ev_base_unlock s) = false) ->
  count_ev p (snd (soft_unlock_all l m)) = O.
Proof.
  intros Hp. apply count_ev_none.
  eapply Forall_impl; [apply soft_unlock_all_events |].
  intros e [s ->]. apply Hp.
Qed.

(** ** Hard locks along a lifecycle *)

Lemma trees_ok_cons (o : op) (ops : list op) :
  trees_ok (o :: ops) -> trees_ok [o] /\ trees_ok ops.
Proof. destruct o; cbn; tauto. Qed.

Lemma recorded_empty {A : Type} (s : wlr_surface) :
  recorded (∅ : gmap wlr_surface A) s = O.
Proof. unfold recorded. rewrite lookup_empty. reflexivity. Qed.

(** Counts over the events a step appends: the parts that are maps over
    the surfaces or the outcome of the soft unlock contribute nothing
    unless they are of the counted kind. *)
Ltac count_tail :=
  repeat first
    [ rewrite count_ev_app
    | progress cbn [count_ev is_lock_pending is_unlock_cached is_ready
                    is_final_size is_cancel is_base_lock is_base_unlock
                    String.eqb Ascii.eqb Bool.eqb]
    | match goal with
      | |- context [count_ev ?p (map ?f ?l)] =>
          rewrite (count_ev_map_none p f l) by reflexivity
      | |- context [count_ev ?p (snd (soft_unlock_all ?l ?m))] =>
          rewrite (count_ev_soft_unlock_none p l m) by reflexivity
      end ];
  rewrite ?recorded_empty, ?Nat.add_0_r.

Ltac solve_balanced Hbal Hnd :=
  let s := fresh "s" in
  intros s; specialize (Hbal s);
  rewrite ?recorded_empty in Hbal;
  count_tail;
  rewrite ?recorded_hard_lock_all by exact Hnd;
  rewrite ?count_unlock_cached_map_to_list;
  lia.

(** Case analysis on everything a step branches on. *)
Ltac split_step H :=
  repeat match type of H with
    | context [match ?x with _ => _ end] =>
        lazymatch x with
        | context [match _ with _ => _ end] => fail
        | _ => let E := fresh "E" in destruct x eqn:E
        end
    | context [if ?x then _ else _] =>
        lazymatch x with
        | context [if _ then _ else _] => fail
        | _ => let E := fresh "E" in destruct x eqn:E
        end
    end; try discriminate H.

Lemma hard_inv_init (v : wayfire_xdg_view) (ch : change) :
  NoDup (surfaces v) -> hard_inv Created (construct v ch).
Proof.
  intros Hnd. unfold hard_inv, hard_balanced.
  destruct ch as [e | g [|] | g | |]; exec_simpl;
    (split; [exact Hnd |]);
    (split; [| split; [discriminate | split; reflexivity]]);
    intros s; count_tail; reflexivity.
Qed.

Lemma hard_inv_step (p p' : phase) (o : op) (c c' : cfg) :
  hard_inv p c ->
  trees_ok [o] ->
  next_phase p o = Some p' ->
  exec o c = Ok c' ->
  hard_inv p' c'.
Proof.
  intros (Hnd & Hbal & Hconn & Hph) Htree Hnext Hexec.
  destruct c as [[k cb conn hl hs al] v l].
  unfold hard_inv, hard_balanced in *. cbn in Hnd, Hbal, Hconn, Hph.
  destruct o.
  - (* Stage *)
    destruct p; cbn in Hnext; try discriminate. injection Hnext as <-.
    cbn in Hph. destruct Hph as [-> ->].
    unfold exec in Hexec; cbn in Hexec. destruct al; [| discriminate].
    destruct k; exec_simpl_in Hexec; injection Hexec as <-; cbn.
    all: split; [exact Hnd |].
    all: split; [solve_balanced Hbal Hnd |].
    all: split; [discriminate |].
    all: split; [reflexivity | try reflexivity; discriminate].
  - (* Request *)
    destruct p; cbn in Hnext; try discriminate. injection Hnext as <-.
    cbn in Hph. destruct Hph as [-> Hhl].
    unfold exec in Hexec; cbn in Hexec. destruct al; [| discriminate].
    destruct k; exec_simpl_in Hexec; split_step Hexec;
      injection Hexec as <-; cbn.
    all: try (rewrite (Hhl eq_refl) in *).
    all: split; [exact Hnd |].
    all: split; [solve_balanced Hbal Hnd |].
    all: split; [first [discriminate | reflexivity] | exact I].
  - (* Finalize *)
    destruct p; cbn in Hnext; try discriminate. injection Hnext as <-.
    unfold exec in Hexec; cbn in Hexec. destruct al; [| discriminate].
    destruct k; exec_simpl_in Hexec; split_step Hexec;
      injection Hexec as <-; cbn.
    all: split; [exact Hnd |].
    all: split; [solve_balanced Hbal Hnd |].
    all: split; [first [exact Hconn | reflexivity] | exact I].
  - (* SurfaceCommit *)
    assert (p' = p) as -> by (destruct p; cbn in Hnext; congruence).
    exec_simpl_in Hexec; split_step Hexec; injection Hexec as <-; cbn.
    all: try (rewrite (Hconn eq_refl) in * ).
    all: split; [exact Hnd |].
    all: split; [solve_balanced Hbal Hnd |].
    all: split; [first [discriminate | exact Hconn | reflexivity] |].
    all: destruct p; cbn in Hph |- *; try exact I; try exact Hph.
    all: destruct Hph; discriminate.
  - (* Kill *)
    assert (p' = Cancelled) as -> by (destruct p; cbn in Hnext; congruence).
    exec_simpl_in Hexec; split_step Hexec; injection Hexec as <-; cbn.
    all: split; [exact Hnd |].
    all: split; [solve_balanced Hbal Hnd |].
    all: split; [first [discriminate | exact Hconn] | exact I].
  - (* Destroy *)
    assert (p' = Destroyed) as -> by (destruct p; cbn in Hnext; congruence).
    exec_simpl_in Hexec; split_step Hexec; injection Hexec as <-; cbn.
    split; [exact Hnd |].
    split; [solve_balanced Hbal Hnd |].
    split; [discriminate | split; reflexivity].
  - (* Env *)
    assert (p' = p) as -> by (destruct p; cbn in Hnext; congruence).
    exec_simpl_in Hexec; injection Hexec as <-; cbn.
    cbn in Htree. destruct Htree as [Htree _].
    split; [apply Htree, Hnd |].
    split; [exact Hbal |].
    split; [exact Hconn |].
    destruct p; cbn in Hph |- *; exact Hph.
Qed.

Lemma run_app (ops1 ops2 : list op) (c c' : cfg) :
  run (ops1 ++ ops2) c = Ok c' ->
  exists c1, run ops1 c = Ok c1 /\ run ops2 c1 = Ok c'.
Proof.
  revert c. induction ops1 as [| o ops1 IH]; intros c H; cbn in *.
  - eauto.
  - unfold bind in *. destruct (exec o c) as [c1 | f]; [| discriminate].
    now apply IH.
Qed.

Lemma lifecycle_app (ops1 ops2 : list op) (p p' : phase) :
  lifecycle p (ops1 ++ ops2) = Some p' ->
  exists p1, lifecycle p ops1 = Some p1 /\ lifecycle p1 ops2 = Some p'.
Proof.
  revert p. induction ops1 as [| o ops1 IH]; intros p H; cbn in *.
  - eauto.
  - destruct (next_phase p o) as [p1 |]; [| discriminate].
    now apply IH.
Qed.

Lemma trees_ok_app (ops1 ops2 : list op) :
  trees_ok (ops1 ++ ops2) -> trees_ok ops1 /\ trees_ok ops2.
Proof.
  induction ops1 as [| o ops1 IH]; cbn; [tauto |].
  destruct o; try exact IH. intros [H1 H2]. apply IH in H2. tauto.
Qed.

Lemma hard_inv_run (ops : list op) (p p' : phase) (c c' : cfg) :
  hard_inv p c ->
  trees_ok ops ->
  lifecycle p ops = Some p' ->
  run ops c = Ok c' ->
  hard_inv p' c'.
Proof.
  revert p c. induction ops as [| o ops IH]; intros p c Hinv Htree Hlife Hrun.
  - cbn in *. congruence.
  - apply trees_ok_cons in Htree as [Ho Htree].
    cbn in Hlife, Hrun. unfold bind in Hrun.
    destruct (next_phase p o) as [p1 |] eqn:Hnext; [| discriminate].
    destruct (exec o c) as [c1 | f] eqn:Hexec; [| discriminate].
    apply (IH p1 c1); try assumption.
    eapply hard_inv_step; eassumption.
Qed.

(** ** Soft locks along a lifecycle *)

Lemma soft_unlock_all_keeps (l : list wlr_surface) (m : gmap wlr_surface bool)
    (s : wlr_surface) :
  m !! s <> Some true -> fst (soft_unlock_all l m) !! s <> Some true.
Proof.
  revert m. induction l as [| a l IH]; intros m H; cbn; [exact H |].
  assert (Hins : <[a := false]> m !! s <> Some true).
  { destruct (decide (a = s)) as [-> | Hne].
    - rewrite lookup_insert_eq. discriminate.
    - rewrite lookup_insert_ne by exact Hne. exact H. }
  destruct (m !! a) as [[|]|]; cbn; auto.
Qed.

Lemma soft_unlock_all_clears (l : list wlr_surface) (m : gmap wlr_surface bool)
    (s : wlr_surface) :
  In s l -> fst (soft_unlock_all l m) !! s <> Some true.
Proof.
  revert m. induction l as [| a l IH]; intros m Hin; [destruct Hin |].
  destruct Hin as [-> | Hin].
  - cbn. destruct (m !! s) as [[|]|] eqn:E; cbn.
    + apply soft_unlock_all_keeps. rewrite lookup_insert_eq. discriminate.
    + apply soft_unlock_all_keeps. rewrite E. discriminate.
    + apply soft_unlock_all_keeps. rewrite lookup_insert_eq. discriminate.
  - cbn. destruct (m !! a) as [[|]|]; cbn; now apply IH.
Qed.

Lemma soft_inv_init (v : wayfire_xdg_view) (ch : change) :
  soft_inv (construct v ch).
Proof.
  unfold soft_inv.
  destruct ch as [e | g [|] | g | |]; exec_simpl; intros H;
    first [discriminate H | reflexivity].
Qed.

Lemma soft_inv_step (o : op) (c c' : cfg) :
  soft_inv c -> exec o c = Ok c' -> soft_inv c'.
Proof.
  intros Hinv Hexec.
  destruct c as [[k cb conn hl hs al] v l].
  unfold soft_inv in *. cbn in Hinv.
  destruct o; unfold exec in Hexec; cbn in Hexec.
  1-3: destruct al; [| discriminate];
       destruct k; exec_simpl_in Hexec; split_step Hexec;
       injection Hexec as <-; cbn; intros H;
       first [discriminate H | exact (Hinv H)].
  all: exec_simpl_in Hexec; split_step Hexec; injection Hexec as <-; cbn;
       exact Hinv.
Qed.

Lemma soft_inv_run (ops : list op) (c c' : cfg) :
  soft_inv c -> run ops c = Ok c' -> soft_inv c'.
Proof.
  revert c. induction ops as [| o ops IH]; intros c Hinv Hrun; cbn in Hrun.
  - injection Hrun as <-. exact Hinv.
  - unfold bind in Hrun.
    destruct (exec o c) as [c1 | f] eqn:Hexec; [| discriminate].
    apply (IH c1); [| assumption].
    eapply soft_inv_step; eassumption.
Qed.

(** [finalize()] leaves no surface of the current tree flagged. *)
Lemma finalize_clears_soft_flags (c c' : cfg) (s : wlr_surface) :
  soft_inv c ->
  exec Finalize c = Ok c' ->
  In s (surfaces (view c)) ->
  held_soft_locks (self c') !! s <> Some true.
Proof.
  intros Hinv Hexec Hin.
  destruct c as [[k cb conn hl hs al] v l].
  unfold soft_inv in Hinv. cbn in Hinv, Hin.
  unfold exec in Hexec; cbn in Hexec. destruct al; [| discriminate].
  destruct k; exec_simpl_in Hexec; split_step Hexec; injection Hexec as <-; cbn.
  all: try (apply soft_unlock_all_clears; exact Hin).
  all: rewrite (Hinv eq_refl), lookup_empty; discriminate.
Qed.

(** After [finalize()] or the kill nothing touches the soft flags. *)
Lemma soft_flags_frozen (ops : list op) (p p' : phase) (c c' : cfg) :
  p = Finalized \/ p = Cancelled \/ p = Destroyed ->
  lifecycle p ops = Some p' ->
  run ops c = Ok c' ->
  held_soft_locks (self c') = held_soft_locks (self c).
Proof.
  revert p c. induction ops as [| o ops IH]; intros p c Hp Hlife Hrun;
    cbn in Hlife, Hrun.
  - injection Hrun as <-. reflexivity.
  - unfold bind in Hrun.
    destruct (next_phase p o) as [p1 |] eqn:Hnext; [| discriminate].
    destruct (exec o c) as [c1 | f] eqn:Hexec; [| discriminate].
    assert (Hp1 : p1 = Finalized \/ p1 = Cancelled \/ p1 = Destroyed).
    { destruct Hp as [-> | [-> | ->]]; destruct o; cbn in Hnext;
        try discriminate; injection Hnext as <-; tauto. }
    rewrite (IH p1 c1 Hp1 Hlife Hrun).
    destruct c as [[k cb conn hl hs al] v l].
    destruct Hp as [-> | [-> | ->]]; destruct o; cbn in Hnext;
      try discriminate.
    all: exec_simpl_in Hexec; split_step Hexec; injection Hexec as <-;
         reflexivity.
Qed.


(** ** [final-size] and [ready] along a lifecycle *)

Lemma count_ev_zero_In (p : event -> bool) (l : list event) (e : event) :
  count_ev p l = O -> In e l -> p e = false.
Proof.
  induction l as [| a l IH]; cbn; intros Hc Hin; [destruct Hin |].
  destruct (p a) eqn:E; [discriminate |].
  destruct Hin as [<- | Hin]; auto.
Qed.

Lemma ready_follows_nil : ready_follows_final_size [].
Proof. intros l1 l2 H. destruct l1; discriminate H. Qed.

Lemma ready_follows_app_quiet (l evs : list event) :
  ready_follows_final_size l ->
  count_ev is_ready evs = O ->
  ready_follows_final_size (l ++ evs).
Proof.
  intros Hl Hq l1 l2 Heq.
  assert (Hno : ~ In ready_event evs).
  { intros Hin. pose proof (count_ev_zero_In _ _ _ Hq Hin) as H. discriminate H. }
  apply app_eq_app in Heq as [k [[-> Hk] | [-> Hk]]].
  - destruct k as [| e k]; cbn in Hk.
    + exfalso. apply Hno. rewrite <- Hk. now left.
    + injection Hk as <- _. apply (Hl l1 k). reflexivity.
  - exfalso. apply Hno. rewrite Hk. apply in_or_app. right. now left.
Qed.

Lemma ready_follows_snoc_ready (l : list event) (d : dimensions_t) :
  ready_follows_final_size (l ++ [ev_view_signal "final-size" d]) ->
  ready_follows_final_size
    ((l ++ [ev_view_signal "final-size" d]) ++ [ev_instruction_signal "ready"]).
Proof.
  intros Hl l1 l2 Heq.
  destruct l2 as [| e l2 _] using rev_ind.
  - apply app_inj_tail in Heq as [<- _]. eauto.
  - change (l1 ++ ready_event :: l2 ++ [e])
      with (l1 ++ (ready_event :: l2) ++ [e]) in Heq.
    rewrite app_assoc in Heq. apply app_inj_tail in Heq as [Heq _].
    apply (Hl l1 l2). exact Heq.
Qed.

Lemma ready_follows_quiet (l : list event) :
  count_ev is_ready l = O -> ready_follows_final_size l.
Proof.
  intros H. apply (ready_follows_app_quiet [] l); [apply ready_follows_nil | exact H].
Qed.

Ltac solve_ready_follows H :=
  repeat first
    [ exact H
    | apply ready_follows_snoc_ready
    | apply ready_follows_app_quiet; [| count_tail; reflexivity] ].

Lemma ready_inv_init (v : wayfire_xdg_view) (ch : change) :
  ready_inv Created (construct v ch).
Proof.
  unfold ready_inv.
  destruct ch as [e | g [|] | g | |]; exec_simpl.
  all: split; [count_tail; lia |].
  all: split; [| split; [discriminate | split; [reflexivity | count_tail; reflexivity]]].
  all: intros _; split; [count_tail; reflexivity |].
  all: apply ready_follows_quiet; count_tail; reflexivity.
Qed.

Lemma ready_inv_step (p p' : phase) (o : op) (c c' : cfg) :
  ready_inv p c ->
  next_phase p o = Some p' ->
  exec o c = Ok c' ->
  ready_inv p' c'.
Proof.
  intros (Hle & Hfs & Hconn & Hph) Hnext Hexec.
  destruct c as [[k cb conn hl hs al] v l].
  unfold ready_inv in *. cbn in Hle, Hfs, Hconn, Hph.
  destruct o.
  - (* Stage *)
    destruct p; cbn in Hnext; try discriminate. injection Hnext as <-.
    cbn in Hph. destruct Hph as [-> Hz].
    unfold exec in Hexec; cbn in Hexec. destruct al; [| discriminate].
    destruct k; exec_simpl_in Hexec; injection Hexec as <-; cbn.
    all: split; [count_tail; lia |].
    all: split; [| split; [discriminate | split; [reflexivity | count_tail; lia]]].
    all: intros Hk; try discriminate Hk; destruct (Hfs Hk) as [Heq Hrf].
    all: split; [count_tail; lia | solve_ready_follows Hrf].
  - (* Request *)
    destruct p; cbn in Hnext; try discriminate. injection Hnext as <-.
    cbn in Hph. destruct Hph as [-> Hz].
    unfold exec in Hexec; cbn in Hexec. destruct al; [| discriminate].
    destruct k; exec_simpl_in Hexec; split_step Hexec;
      injection Hexec as <-; cbn.
    all: split; [count_tail; lia |].
    all: split; [| split; [intros Hc; try discriminate Hc; count_tail; lia | exact I]].
    all: intros Hk; try discriminate Hk; destruct (Hfs Hk) as [Heq Hrf].
    all: split; [count_tail; lia | solve_ready_follows Hrf].
  - (* Finalize *)
    destruct p; cbn in Hnext; try discriminate. injection Hnext as <-.
    unfold exec in Hexec; cbn in Hexec. destruct al; [| discriminate].
    destruct k; exec_simpl_in Hexec; split_step Hexec;
      injection Hexec as <-; cbn.
    all: split; [count_tail; lia |].
    all: split; [| split; [intros Hc; specialize (Hconn Hc); count_tail; lia | exact I]].
    all: intros Hk; try discriminate Hk; destruct (Hfs Hk) as [Heq Hrf].
    all: split; [count_tail; lia | solve_ready_follows Hrf].
  - (* SurfaceCommit *)
    assert (p' = p) as -> by (destruct p; cbn in Hnext; congruence).
    exec_simpl_in Hexec; split_step Hexec; injection Hexec as <-; cbn.
    all: try (pose proof (Hconn eq_refl) as Hz).
    all: split; [count_tail; lia |].
    all: split; [| split; [intros Hc; try discriminate Hc;
                           try specialize (Hconn Hc); count_tail; lia |]].
    all: try (destruct p; cbn in Hph |- *; try exact I; try exact Hph;
              destruct Hph; discriminate).
    all: intros Hk; try discriminate Hk; destruct (Hfs Hk) as [Heq Hrf].
    all: split; [count_tail; lia | solve_ready_follows Hrf].
  - (* Kill *)
    assert (p' = Cancelled) as -> by (destruct p; cbn in Hnext; congruence).
    exec_simpl_in Hexec; split_step Hexec; injection Hexec as <-; cbn.
    all: split; [count_tail; lia |].
    all: split; [| split; [intros Hc; try discriminate Hc;
                           try specialize (Hconn Hc); count_tail; lia | exact I]].
    all: intros Hk; try discriminate Hk; destruct (Hfs Hk) as [Heq Hrf].
    all: split; [count_tail; lia | solve_ready_follows Hrf].
  - (* Destroy *)
    assert (p' = Destroyed) as -> by (destruct p; cbn in Hnext; congruence).
    exec_simpl_in Hexec; split_step Hexec; injection Hexec as <-; cbn.
    all: split; [count_tail; lia |].
    all: split; [| split; [intros Hc; try discriminate Hc | exact I]].
    all: intros Hk; try discriminate Hk; destruct (Hfs Hk) as [Heq Hrf].
    all: split; [count_tail; lia | solve_ready_follows Hrf].
  - (* Env *)
    assert (p' = p) as -> by (destruct p; cbn in Hnext; congruence).
    exec_simpl_in Hexec; injection Hexec as <-; cbn.
    split; [exact Hle |]. split; [exact Hfs |]. split; [exact Hconn |].
    destruct p; cbn in Hph |- *; exact Hph.
Qed.

Lemma ready_inv_run (ops : list op) (p p' : phase) (c c' : cfg) :
  ready_inv p c ->
  lifecycle p ops = Some p' ->
  run ops c = Ok c' ->
  ready_inv p' c'.
Proof.
  revert p c. induction ops as [| o ops IH]; intros p c Hinv Hlife Hrun.
  - cbn in *. congruence.
  - cbn in Hlife, Hrun. unfold bind in Hrun.
    destruct (next_phase p o) as [p1 |] eqn:Hnext; [| discriminate].
    destruct (exec o c) as [c1 | f] eqn:Hexec; [| discriminate].
    apply (IH p1 c1); try assumption.
    eapply ready_inv_step; eassumption.
Qed.

(** What one step adds to the log: nothing that is a [final-size] or a
    [ready], or else, last, the [final-size] computed from the view as it
    is, followed by [ready]. *)
Lemma step_shape (o : op) (c c' : cfg) :
  is_unmap (kind (self c)) = false ->
  exec o c = Ok c' ->
  exists evs,
    log c' = log c ++ evs /\
    ((count_ev is_ready evs = O /\ count_ev is_final_size evs = O) \/
     (exists toplevel pre,
        xdg_toplevel (view c) = Some toplevel /\
        evs = pre ++ [final_size_event (view c) toplevel; ready_event] /\
        count_ev is_ready pre = O /\ count_ev is_final_size pre = O)).
Proof.
  intros Hk Hexec.
  destruct c as [[k cb conn hl hs al] v l]. cbn in Hk.
  destruct o; unfold exec in Hexec; cbn in Hexec.
  1-3: destruct al; [| discriminate]; destruct k; try discriminate Hk.
  all: exec_simpl_in Hexec; split_step Hexec; injection Hexec as <-; cbn.
  all: rewrite <- ?app_assoc.
  all: first [ eexists; split; [reflexivity |]
             | exists []; split; [symmetry; apply app_nil_r |] ].
  all: try (left; split; count_tail; reflexivity).
  all: right; unfold final_size_event, final_box, ready_event; cbn.
  all: match goal with
       | E : xdg_toplevel _ = Some ?w, F : frame _ = _ |- _ =>
           exists w; rewrite F;
           first [ exists []; split; [exact E |]; split; [reflexivity |];
                   split; reflexivity
                 | eexists; split; [exact E |]; split; [reflexivity |];
                   split; count_tail; reflexivity ]
       end.
Qed.

Lemma is_unmap_step (o : op) (c c' : cfg) :
  exec o c = Ok c' -> is_unmap (kind (self c')) = is_unmap (kind (self c)).
Proof.
  intros Hexec. destruct c as [[k cb conn hl hs al] v l].
  destruct o; unfold exec in Hexec; cbn in Hexec.
  1-3: destruct al; [| discriminate]; destruct k.
  all: exec_simpl_in Hexec; split_step Hexec; injection Hexec as <-;
       reflexivity.
Qed.

Lemma is_unmap_run (ops : list op) (c c' : cfg) :
  run ops c = Ok c' -> is_unmap (kind (self c')) = is_unmap (kind (self c)).
Proof.
  revert c. induction ops as [| o ops IH]; intros c Hrun; cbn in Hrun.
  - injection Hrun as <-. reflexivity.
  - unfold bind in Hrun.
    destruct (exec o c) as [c1 | f] eqn:Hexec; [| discriminate].
    rewrite (IH c1 Hrun). now apply (is_unmap_step o).
Qed.

Lemma is_unmap_construct (v : wayfire_xdg_view) (ch : change) :
  ch <> ChUnmap -> is_unmap (kind (self (construct v ch))) = false.
Proof.
  intros Hch. destruct ch as [e | g [|] | g | |]; try reflexivity.
  - exec_simpl. reflexivity.
  - contradiction.
Qed.

(** C4 (amended). For every variant but the unmap instruction, along every
    lifecycle: the step that emits [ready] first computes the final box
    from the view as it is then (the surface geometry, expanded by the
    margins when there is a frame), publishes its size as [final-size] and
    emits [ready] directly after it; [final-size] is published as often as
    [ready] is emitted, at most once per instruction.  (The unmap
    instruction emits [ready] alone.) *)
Theorem C4_final_size_then_ready (ch : change) (v : wayfire_xdg_view)
    (ops : list op) (p : phase) (c' : cfg) :
  ch <> ChUnmap ->
  lifecycle Created ops = Some p ->
  run ops (construct v ch) = Ok c' ->
  count_ev is_final_size (log c') = count_ev is_ready (log c') /\
  (count_ev is_ready (log c') <= 1)%nat /\
  ready_follows_final_size (log c') /\
  (forall pre o post c1 c2,
     ops = pre ++ o :: post ->
     run pre (construct v ch) = Ok c1 ->
     exec o c1 = Ok c2 ->
     exists evs,
       log c2 = log c1 ++ evs /\
       ((count_ev is_ready evs = O /\ count_ev is_final_size evs = O) \/
        (exists toplevel quiet,
           xdg_toplevel (view c1) = Some toplevel /\
           evs = quiet ++ [final_size_event (view c1) toplevel; ready_event] /\
           count_ev is_ready quiet = O /\ count_ev is_final_size quiet = O))).
Proof.
  intros Hch Hlife Hrun.
  assert (Hkind : forall ops1 c1, run ops1 (construct v ch) = Ok c1 ->
                    is_unmap (kind (self c1)) = false).
  { intros ops1 c1 H1. rewrite (is_unmap_run ops1 _ c1 H1).
    now apply is_unmap_construct. }
  pose proof (ready_inv_run ops Created p _ c' (ready_inv_init v ch) Hlife Hrun)
    as (Hle & Hfs & _ & _).
  destruct (Hfs (Hkind ops c' Hrun)) as [Heq Hrf].
  split; [exact Heq |]. split; [exact Hle |]. split; [exact Hrf |].
  intros pre o post c1 c2 -> Hpre Hexec.
  apply (step_shape o c1 c2); [| exact Hexec].
  apply (Hkind pre c1 Hpre).
Qed.

(** ** The destruction of the view *)

(** Once the hook has fired, with [on_commit] disconnected: commits of the
    client and changes of the view leave the instruction alone, and its
    destruction empties the record of hard locks. *)
Lemma after_cancel (ops : list op) (p p' : phase) (c c' : cfg) :
  p = Cancelled \/ p = Destroyed ->
  on_commit_connected (self c) = false ->
  lifecycle p ops = Some p' ->
  run ops c = Ok c' ->
  on_commit_connected (self c') = false /\
  count_ev is_ready (log c') = count_ev is_ready (log c) /\
  count_ev is_cancel (log c') = count_ev is_cancel (log c) /\
  (p = Cancelled -> p' = Destroyed -> held_locks (self c') = ∅) /\
  (p' = Cancelled -> held_locks (self c') = held_locks (self c)) /\
  (p = Destroyed -> held_locks (self c') = held_locks (self c)).
Proof.
  revert p c. induction ops as [| o ops IH]; intros p c Hp Hconn Hlife Hrun;
    cbn in Hlife, Hrun.
  - injection Hrun as <-. injection Hlife as <-.
    repeat split; try reflexivity; try assumption.
    intros ->. discriminate.
  - unfold bind in Hrun.
    destruct (next_phase p o) as [p1 |] eqn:Hnext; [| discriminate].
    destruct (exec o c) as [c1 | f] eqn:Hexec; [| discriminate].
    assert (Hstep : on_commit_connected (self c1) = false /\
                    count_ev is_ready (log c1) = count_ev is_ready (log c) /\
                    count_ev is_cancel (log c1) = count_ev is_cancel (log c) /\
                    ((p1 = p /\ held_locks (self c1) = held_locks (self c)) \/
                     (p = Cancelled /\ p1 = Destroyed /\ held_locks (self c1) = ∅))).
    { destruct c as [[k cb conn hl hs al] v l]. cbn in Hconn. subst conn.
      destruct Hp as [-> | ->]; destruct o; cbn in Hnext; try discriminate;
        injection Hnext as <-.
      all: exec_simpl_in Hexec; split_step Hexec; injection Hexec as <-; cbn.
      all: split; [reflexivity |].
      all: split; [count_tail; reflexivity |].
      all: split; [count_tail; reflexivity |].
      all: first [left; split; reflexivity | right; repeat split; reflexivity]. }
    destruct Hstep as (Hconn1 & Hr1 & Hc1 & Hhl).
    assert (Hp1 : p1 = Cancelled \/ p1 = Destroyed).
    { destruct Hhl as [[-> _] | (_ & -> & _)]; tauto. }
    destruct (IH p1 c1 Hp1 Hconn1 Hlife Hrun) as (Hconn' & Hr' & Hc' & HD & HC & HDD).
    split; [exact Hconn' |].
    split; [congruence |].
    split; [congruence |].
    destruct Hhl as [[-> Heq] | (-> & -> & Hempty)].
    + split; [exact HD |].
      split; intros H; [rewrite (HC H) | rewrite (HDD H)]; exact Heq.
    + repeat split; intros; try discriminate.
      * rewrite HDD by reflexivity. exact Hempty.
      * subst p'. exfalso.
        clear -Hlife. revert Hlife. generalize ops.
        induction ops0 as [| o0 ops0 IH0]; cbn; [discriminate |].
        destruct o0; cbn; try discriminate; exact IH0.
Qed.

(** C2 (amended). When the view signals its destruction to a live
    instruction that has not emitted [ready], the hook disconnects
    [on_commit] and emits [cancel], once; it releases no lock: the records
    of hard and of soft locks are as they were.  Afterwards no [ready] is
    emitted any more and no further [cancel]; the soft flags stay as they
    were, and the record of hard locks is emptied when the instruction is
    destroyed. *)
Theorem C2_kill_emits_cancel_only (c : cfg) :
  alive (self c) = true ->
  count_ev is_ready (log c) = O ->
  exists c1,
    exec Kill c = Ok c1 /\
    log c1 = log c ++ [cancel_event] /\
    on_commit_connected (self c1) = false /\
    held_locks (self c1) = held_locks (self c) /\
    held_soft_locks (self c1) = held_soft_locks (self c) /\
    view c1 = view c /\
    (forall ops p c2,
       lifecycle Cancelled ops = Some p ->
       run ops c1 = Ok c2 ->
       count_ev is_ready (log c2) = O /\
       count_ev is_cancel (log c2) = S (count_ev is_cancel (log c)) /\
       held_soft_locks (self c2) = held_soft_locks (self c) /\
       (p = Cancelled -> held_locks (self c2) = held_locks (self c)) /\
       (p = Destroyed -> held_locks (self c2) = ∅)).
Proof.
  intros Halive Hready.
  exists (on_kill c).
  split; [unfold exec; rewrite Halive; reflexivity |].
  repeat (split; [reflexivity |]).
  intros ops p c2 Hlife Hrun.
  destruct (after_cancel ops Cancelled p (on_kill c) c2
              (or_introl eq_refl) eq_refl Hlife Hrun)
    as (_ & Hr & Hc & HD & HC & _).
  change (log (on_kill c)) with (log c ++ [cancel_event]) in Hr, Hc.
  change (held_locks (self (on_kill c))) with (held_locks (self c)) in HC.
  rewrite count_ev_app in Hr, Hc. cbn in Hr, Hc.
  split; [lia |]. split; [lia |].
  split.
  { rewrite (soft_flags_frozen ops Cancelled p (on_kill c) c2
               (or_intror (or_introl eq_refl)) Hlife Hrun). reflexivity. }
  split; [exact HC | exact (HD eq_refl)].
Qed.

Lemma client_ack_surfaces (serial : Z) (realized : wlr_box) (v : wayfire_xdg_view) :
  surfaces (client_ack serial realized v) = surfaces v.
Proof. unfold client_ack. destruct (xdg_toplevel v); reflexivity. Qed.

(** * Further properties of the code *)

(** ** The matcher as a comparison modulo 2^32 *)

Lemma wrap32_difference (current target : Z) :
  0 <= current < uint32_mod ->
  0 <= target < uint32_mod ->
  wrap32 (current - target) =
  if target <=? current then current - target
  else current - target + uint32_mod.
Proof.
  intros Hc Ht. unfold wrap32, uint32_mod in *.
  destruct (Z.leb_spec target current).
  - apply Z.mod_small. lia.
  - symmetry. apply (Z.mod_unique _ _ (-1)); lia.
Qed.

(** X1. With an acknowledged serial that is not 0, the matcher compares
    the serials modulo 2^32: it answers true when [current] is less than
    2^31 - 1 ahead of [target], and false when it is more than 2^31 ahead
    (that is, behind [target]). *)
Theorem X1_matcher_modular_window (current target : Z) :
  0 <= current < 4294967296 ->
  0 <= target < 4294967296 ->
  current <> 0 ->
  (wrap32 (current - target) < 2147483647 ->
   target_achieved current target = true) /\
  (2147483648 < wrap32 (current - target) ->
   target_achieved current target = false).
Proof.
  intros Hc Ht Hnz.
  pose proof (target_achieved_spec current target Hc Ht) as Hspec.
  pose proof (wrap32_difference current target Hc Ht) as Hw.
  change (uint32_max / 2) with 2147483647 in Hspec.
  unfold uint32_mod in Hw.
  split; intros H; rewrite Hw in H.
  - apply Hspec. destruct (Z.leb_spec target current); lia.
  - apply not_true_is_false. intros A. apply Hspec in A.
    destruct (Z.leb_spec target current); lia.
Qed.

(** X2. Two different serials never acknowledge each other: when
    [current] reaches [target], [target] does not reach [current]. *)
Theorem X2_matcher_antisymmetric (current target : Z) :
  0 <= current < 4294967296 ->
  0 <= target < 4294967296 ->
  current <> target ->
  target_achieved current target = true ->
  target_achieved target current = false.
Proof.
  intros Hc Ht Hne H.
  apply (target_achieved_spec current target Hc Ht) in H.
  apply not_true_is_false. intros A.
  apply (target_achieved_spec target current Ht Hc) in A.
  change (uint32_max / 2) with 2147483647 in *. lia.
Qed.

(** ** Commits of the client before the acknowledgment *)

Lemma check_ready_not_achieved (c : cfg) (serial : Z) (toplevel : wlr_xdg_toplevel) :
  on_commit_connected (self c) = true ->
  on_commit_callback (self c) = Some serial ->
  xdg_toplevel (view c) = Some toplevel ->
  target_achieved (configure_serial (base toplevel)) serial = false ->
  exec SurfaceCommit c =
  Ok (mk_cfg (self c) (view c) (log c ++ frame_hint (view c))).
Proof.
  intros Hconn Hcb Htl Hno.
  unfold exec. rewrite Hconn, Hcb. unfold check_ready. rewrite Htl, Hno.
  unfold frame_hint. destruct c as [i v l]. cbn.
  destruct (main_surface v); cbn; [reflexivity |].
  rewrite app_nil_r. reflexivity.
Qed.

(** X3. While the toplevel's [configure_serial] does not reach the serial
    of the request, any number of commits of the client leave the
    instruction armed and unchanged: each commit only asks for a frame
    callback (when the view has a surface); no lock is taken and nothing is
    signalled. *)
Theorem X3_commits_before_acknowledgment (n : nat) (c : cfg) (serial : Z)
    (toplevel : wlr_xdg_toplevel) :
  on_commit_connected (self c) = true ->
  on_commit_callback (self c) = Some serial ->
  xdg_toplevel (view c) = Some toplevel ->
  target_achieved (configure_serial (base toplevel)) serial = false ->
  run (List.repeat SurfaceCommit n) c =
  Ok (mk_cfg (self c) (view c)
             (log c ++ concat (List.repeat (frame_hint (view c)) n))).
Proof.
  intros Hconn Hcb Htl Hno. revert c Hconn Hcb Htl.
  induction n as [| n IH]; intros c Hconn Hcb Htl.
  - cbn. rewrite app_nil_r. destruct c; reflexivity.
  - change (run (List.repeat SurfaceCommit (S n)) c)
      with (let* c1 := exec SurfaceCommit c in run (List.repeat SurfaceCommit n) c1).
    rewrite (check_ready_not_achieved c serial toplevel Hconn Hcb Htl Hno).
    unfold bind. rewrite IH by assumption. cbn.
    rewrite <- app_assoc. reflexivity.
Qed.

(** ** The soft locks *)

Lemma soft_unlock_all_false_keeps (l : list wlr_surface) (m : gmap wlr_surface bool)
    (s : wlr_surface) :
  m !! s = Some false -> fst (soft_unlock_all l m) !! s = Some false.
Proof.
  revert m. induction l as [| a l IH]; intros m H; cbn; [exact H |].
  assert (Hins : <[a := false]> m !! s = Some false).
  { destruct (decide (a = s)) as [-> | Hne].
    - apply lookup_insert_eq.
    - rewrite lookup_insert_ne by exact Hne. exact H. }
  destruct (m !! a) as [[|]|]; cbn; auto.
Qed.

Lemma soft_unlock_all_sets_false (l : list wlr_surface) (m : gmap wlr_surface bool)
    (s : wlr_surface) :
  s ∈ l -> fst (soft_unlock_all l m) !! s = Some false.
Proof.
  revert m. induction l as [| a l IH]; intros m Hin; [inversion Hin |].
  apply elem_of_cons in Hin as [-> | Hin].
  - cbn. destruct (m !! a) as [[|]|] eqn:E; cbn;
      apply soft_unlock_all_false_keeps;
      first [apply lookup_insert_eq | exact E].
  - cbn. destruct (m !! a) as [[|]|]; cbn; now apply IH.
Qed.

Lemma soft_unlock_all_notin (l : list wlr_surface) (m : gmap wlr_surface bool)
    (s : wlr_surface) :
  s ∉ l -> fst (soft_unlock_all l m) !! s = m !! s.
Proof.
  revert m. induction l as [| a l IH]; intros m Hnot; cbn; [reflexivity |].
  apply not_elem_of_cons in Hnot as [Hne Hnot].
  destruct (m !! a) as [[|]|]; cbn; rewrite IH by exact Hnot;
    first [reflexivity | apply lookup_insert_ne; congruence].
Qed.

Lemma soft_unlock_all_noop (l : list wlr_surface) (m : gmap wlr_surface bool) :
  (forall s, s ∈ l -> m !! s = Some false) -> soft_unlock_all l m = (m, []).
Proof.
  induction l as [| a l IH]; intros H; cbn; [reflexivity |].
  rewrite (H a) by left. apply IH. intros s Hs. apply H. now right.
Qed.

Lemma flagged_false (m : gmap wlr_surface bool) (s : wlr_surface) :
  m !! s <> Some true -> flagged m s = O.
Proof. unfold flagged. destruct (m !! s) as [[|]|]; congruence. Qed.

Lemma count_base_unlock_soft_unlock_all (l : list wlr_surface)
    (m : gmap wlr_surface bool) (s : wlr_surface) :
  count_ev (is_base_unlock s) (snd (soft_unlock_all l m)) =
  if decide (s ∈ l) then flagged m s else O.
Proof.
  revert m. induction l as [| a l IH]; intros m.
  - cbn. destruct (decide (s ∈ [])) as [H | _]; [inversion H | reflexivity].
  - assert (Hrest : forall m', (a = s -> m' !! s <> Some true) ->
                               (a <> s -> m' !! s = m !! s) ->
                               m !! a <> Some true \/ a <> s ->
              count_ev (is_base_unlock s) (snd (soft_unlock_all l m')) =
              if decide (s ∈ a :: l) then flagged m s else O).
    { intros m' Heq Hother Hcase. rewrite IH.
      destruct (decide (a = s)) as [-> | Hne].
      - rewrite (flagged_false m' s) by now apply Heq.
        destruct Hcase as [Hcase | Hcase]; [| congruence].
        rewrite (flagged_false m s Hcase).
        destruct (decide (s ∈ l)), (decide (s ∈ s :: l)); reflexivity.
      - assert (flagged m' s = flagged m s) as ->
          by (unfold flagged; now rewrite Hother).
        destruct (decide (s ∈ l)) as [Hin | Hnin];
          destruct (decide (s ∈ a :: l)) as [Hin' | Hnin']; try reflexivity.
        + exfalso. apply Hnin'. now right.
        + apply elem_of_cons in Hin' as [-> | Hin']; [congruence | contradiction]. }
    cbn [soft_unlock_all].
    destruct (m !! a) as [[|]|] eqn:E; cbn [fst snd count_ev is_base_unlock].
    + destruct (Pos.eqb_spec s a) as [-> | Hne].
      * rewrite IH.
        rewrite (flagged_false (<[a := false]> m) a)
          by (rewrite lookup_insert_eq; discriminate).
        destruct (decide (a ∈ a :: l)) as [_ | H]; [| exfalso; apply H; left].
        unfold flagged. rewrite E.
        destruct (decide (a ∈ l)); reflexivity.
      * apply Hrest.
        -- intros ->. congruence.
        -- intros _. apply lookup_insert_ne. congruence.
        -- right. congruence.
    + apply Hrest; [intros <-; congruence | reflexivity | left; congruence].
    + apply Hrest.
      * intros <-. rewrite lookup_insert_eq. discriminate.
      * intros Hne. now apply lookup_insert_ne.
      * left. congruence.
Qed.

Lemma soft_lock_all_keeps (l : list wlr_surface) (m : gmap wlr_surface bool)
    (s : wlr_surface) :
  m !! s = Some true -> soft_lock_all l m !! s = Some true.
Proof.
  unfold soft_lock_all. revert m.
  induction l as [| a l IH]; intros m H; cbn [fold_left]; [exact H |].
  apply IH. destruct (decide (a = s)) as [-> | Hne].
  - apply lookup_insert_eq.
  - rewrite lookup_insert_ne by exact Hne. exact H.
Qed.

Lemma soft_lock_all_In (l : list wlr_surface) (m : gmap wlr_surface bool)
    (s : wlr_surface) :
  s ∈ l -> soft_lock_all l m !! s = Some true.
Proof.
  revert m. induction l as [| a l IH]; intros m Hin; [inversion Hin |].
  change (soft_lock_all (a :: l) m) with (soft_lock_all l (<[a := true]> m)).
  apply elem_of_cons in Hin as [-> | Hin].
  - apply soft_lock_all_keeps, lookup_insert_eq.
  - now apply IH.
Qed.

Lemma count_base_lock_map (l : list wlr_surface) (s : wlr_surface) :
  NoDup l ->
  count_ev (is_base_lock s) (map ev_base_lock l) =
  if decide (s ∈ l) then 1%nat else O.
Proof.
  induction 1 as [| a l Ha Hl IH]; cbn.
  - destruct (decide (s ∈ [])) as [H | H]; [inversion H | reflexivity].
  - rewrite IH. destruct (Pos.eqb_spec s a) as [-> | Hne].
    + destruct (decide (a ∈ l)); [contradiction |].
      destruct (decide (a ∈ a :: l)) as [_ | H]; [reflexivity |].
      exfalso. apply H. left.
    + destruct (decide (s ∈ l)) as [Hin | Hnin];
        destruct (decide (s ∈ a :: l)) as [Hin' | Hnin']; try reflexivity.
      * exfalso. apply Hnin'. now right.
      * apply elem_of_cons in Hin' as [-> | Hin']; contradiction.
Qed.

(** X4. Unlocking the tree twice is unlocking it once: a second
    [unlock_tree] over the same tree calls no [unlock()] and leaves the
    flags as they are. *)
Theorem X4_unlock_tree_idempotent (c : cfg) :
  unlock_tree (unlock_tree c) = unlock_tree c.
Proof.
  rewrite (unlock_tree_eq (unlock_tree c)). rewrite unlock_tree_eq.
  cbn [self view log held_soft_locks set_held_soft_locks].
  rewrite soft_unlock_all_noop
    by (intros s Hs; now apply soft_unlock_all_sets_false).
  cbn [fst snd]. rewrite app_nil_r.
  destruct c as [[k cb conn hl hs al] v l]. reflexivity.
Qed.

(** X5. [unlock_tree] calls [unlock()] exactly on the surfaces of the
    current tree that the instruction has flagged, once each, also when the
    enumeration repeats a surface; afterwards every surface of the tree is
    recorded as unlocked, and the flag of a surface that is not in the tree
    (any more) is left as it was. *)
Theorem X5_unlock_tree_exact (c : cfg) (s : wlr_surface) :
  count_ev (is_base_unlock s) (log (unlock_tree c)) =
  (count_ev (is_base_unlock s) (log c) +
   if decide (s ∈ surfaces (view c))
   then flagged (held_soft_locks (self c)) s else O)%nat /\
  count_ev (is_base_lock s) (log (unlock_tree c)) =
  count_ev (is_base_lock s) (log c) /\
  held_soft_locks (self (unlock_tree c)) !! s =
  if decide (s ∈ surfaces (view c)) then Some false
  else held_soft_locks (self c) !! s.
Proof.
  rewrite unlock_tree_eq. cbn [self view log held_soft_locks set_held_soft_locks].
  rewrite !count_ev_app, count_base_unlock_soft_unlock_all.
  rewrite (count_ev_soft_unlock_none (is_base_lock s)) by reflexivity.
  split; [reflexivity |]. split; [lia |].
  destruct c as [[k cb conn hl hs al] v l]. cbn.
  destruct (decide (s ∈ surfaces v)) as [Hin | Hnin].
  - now apply soft_unlock_all_sets_false.
  - now apply soft_unlock_all_notin.
Qed.

(** X6. On a tree that lists each surface once, [lock_tree] followed by
    [unlock_tree] gives back every lock it took: the number of outstanding
    logical locks of every surface is what it was before, and every
    surface of the tree is recorded as unlocked. *)
Theorem X6_lock_unlock_tree_balanced (c : cfg) (s : wlr_surface) :
  NoDup (surfaces (view c)) ->
  soft_outstanding s (log (unlock_tree (lock_tree c))) = soft_outstanding s (log c) /\
  (s ∈ surfaces (view c) ->
   held_soft_locks (self (unlock_tree (lock_tree c))) !! s = Some false).
Proof.
  intros Hnd.
  rewrite unlock_tree_eq, lock_tree_eq.
  cbn [self view log held_soft_locks set_held_soft_locks].
  split.
  - unfold soft_outstanding. rewrite !count_ev_app.
    rewrite count_base_unlock_soft_unlock_all.
    rewrite (count_ev_soft_unlock_none (is_base_lock s)) by reflexivity.
    rewrite (count_ev_map_none (is_base_unlock s)) by reflexivity.
    rewrite count_base_lock_map by exact Hnd.
    destruct (decide (s ∈ surfaces (view c))) as [Hin | Hnin]; [| lia].
    unfold flagged.
    destruct c as [[k cb conn hl hs al] v l]. cbn in *.
    rewrite soft_lock_all_In by exact Hin. lia.
  - intros Hin. destruct c as [[k cb conn hl hs al] v l]. cbn in *.
    now apply soft_unlock_all_sets_false.
Qed.

(** ** The hard locks *)

Lemma recorded_hard_lock_all_In (seq : wlr_surface -> Z) (l : list wlr_surface)
    (m : gmap wlr_surface Z) (s : wlr_surface) :
  s ∈ l -> recorded (hard_lock_all seq l m) s = 1%nat.
Proof.
  intros Hin. unfold recorded.
  rewrite hard_lock_all_In by (apply list_elem_of_In; exact Hin). reflexivity.
Qed.

Lemma hard_lock_all_lookup (seq : wlr_surface -> Z) (l : list wlr_surface)
    (s : wlr_surface) (id : Z) :
  hard_lock_all seq l ∅ !! s = Some id -> In s l /\ id = seq s.
Proof.
  intros H. destruct (decide (s ∈ l)) as [Hin | Hnin].
  - apply list_elem_of_In in Hin. split; [exact Hin |].
    rewrite (hard_lock_all_In seq l ∅ s Hin) in H. congruence.
  - rewrite hard_lock_all_notin in H by exact Hnin.
    rewrite lookup_empty in H. discriminate H.
Qed.

(** X7. From an empty record and on a tree that lists each surface once,
    [lock_tree_wlr] followed by [unlock_tree_wlr] is a round trip: every
    surface has as many outstanding hard locks as before, the record is
    empty again, every release names a surface of the tree with the token
    its acquisition returned, and a second [unlock_tree_wlr] changes
    nothing. *)
Theorem X7_hard_lock_round_trip (c : cfg) :
  NoDup (surfaces (view c)) ->
  held_locks (self c) = ∅ ->
  let c' := unlock_tree_wlr (lock_tree_wlr c) in
  held_locks (self c') = ∅ /\
  (forall s, hard_outstanding s (log c') = hard_outstanding s (log c)) /\
  (forall s id, In (ev_unlock_cached s id) (log c') ->
     In (ev_unlock_cached s id) (log c) \/
     (In s (surfaces (view c)) /\ id = pending_seq (view c) s)) /\
  unlock_tree_wlr c' = c'.
Proof.
  intros Hnd Hempty c'. subst c'.
  rewrite unlock_tree_wlr_eq, lock_tree_wlr_eq.
  cbn [self view log held_locks set_held_locks]. rewrite Hempty.
  split; [reflexivity |].
  split; [| split].
  - intros s. unfold hard_outstanding. rewrite !count_ev_app.
    rewrite count_unlock_cached_map_to_list.
    rewrite <- recorded_hard_lock_all by exact Hnd.
    rewrite (count_ev_map_none (is_unlock_cached s)) by reflexivity.
    rewrite (count_ev_map_none (is_lock_pending s)) by reflexivity.
    lia.
  - intros s id Hin.
    apply in_app_or in Hin as [Hin | Hin].
    + apply in_app_or in Hin as [Hin | Hin]; [now left |].
      apply in_map_iff in Hin as (x & Hx & _). discriminate Hx.
    + right. apply in_map_iff in Hin as ([s' id'] & Hx & Hin).
      cbn in Hx. injection Hx as -> ->.
      apply list_elem_of_In, elem_of_map_to_list in Hin.
      now apply hard_lock_all_lookup in Hin.
  - rewrite unlock_tree_wlr_eq.
    cbn [self view log held_locks set_held_locks].
    rewrite map_to_list_empty. cbn [map]. rewrite app_nil_r.
    destruct c as [[k cb conn hl hs al] v l]. reflexivity.
Qed.

(** X8. The record keeps one token per surface: when [lock_tree_wlr] runs
    twice over the tree, the second token replaces the first, and
    [unlock_tree_wlr] then releases one lock per surface only; each
    surface of the tree is left with one more outstanding hard lock than
    before. *)
Theorem X8_hard_lock_twice_leaks (c : cfg) (s : wlr_surface) :
  NoDup (surfaces (view c)) ->
  held_locks (self c) = ∅ ->
  let c' := unlock_tree_wlr (lock_tree_wlr (lock_tree_wlr c)) in
  held_locks (self c') = ∅ /\
  hard_outstanding s (log c') =
  hard_outstanding s (log c) + (if decide (s ∈ surfaces (view c)) then 1 else 0).
Proof.
  intros Hnd Hempty c'. subst c'.
  rewrite unlock_tree_wlr_eq, (lock_tree_wlr_eq (lock_tree_wlr c)), lock_tree_wlr_eq.
  cbn [self view log held_locks set_held_locks]. rewrite Hempty.
  split; [reflexivity |].
  unfold hard_outstanding. rewrite !count_ev_app.
  rewrite count_unlock_cached_map_to_list.
  rewrite !(count_ev_map_none (is_unlock_cached s)) by reflexivity.
  rewrite (count_ev_map_none (is_lock_pending s)
             (fun p : wlr_surface * Z => ev_unlock_cached (fst p) (snd p)))
    by reflexivity.
  rewrite count_lock_pending_map by exact Hnd.
  destruct (decide (s ∈ surfaces (view c))) as [Hin | Hnin].
  - rewrite recorded_hard_lock_all_In by exact Hin. lia.
  - unfold recorded. rewrite !hard_lock_all_notin by exact Hnin.
    rewrite lookup_empty. lia.
Qed.

(** ** What [commit] does, by variant *)

Ltac count_more :=
  repeat first
    [ rewrite count_ev_app
    | progress cbn [count_ev is_lock_pending is_unlock_cached is_ready
                    is_final_size is_cancel is_base_lock is_base_unlock
                    is_configure is_lock_event
                    String.eqb Ascii.eqb Bool.eqb]
    | match goal with
      | |- context [count_ev ?p (map ?f ?l)] =>
          rewrite (count_ev_map_none p f l) by reflexivity
      | |- context [count_ev ?p (snd (soft_unlock_all ?l ?m))] =>
          rewrite (count_ev_soft_unlock_none p l m) by reflexivity
      end ];
  rewrite ?Nat.add_0_r.

(** X9. [commit] faults exactly when the protocol object is null and the
    instruction is not the unmap instruction: every other variant then
    reaches [emit_final_size_and_ready], which reads the object.  It has no
    other fault. *)
Theorem X9_request_faults_iff_null_toplevel (c : cfg) :
  alive (self c) = true ->
  (exec Request c = Crash NullDeref <->
   xdg_toplevel (view c) = None /\ is_unmap (kind (self c)) = false) /\
  (forall f, exec Request c = Crash f -> f = NullDeref).
Proof.
  intros Halive.
  destruct c as [[k cb conn hl hs al] v l]. cbn in Halive. subst al.
  unfold exec. cbn [self alive view kind].
  destruct k; exec_simpl.
  all: destruct (xdg_toplevel v) as [tl |] eqn:Htl; exec_simpl.
  all: try rewrite Htl.
  all: repeat match goal with
         | |- context [if ?b then _ else _] => destruct b
         end.
  all: split; [split |].
  all: try (intros H; discriminate H).
  all: try (intros [H1 H2]; first [discriminate H1 | discriminate H2]).
  all: try (intros _; split; reflexivity).
  all: try (intros _; reflexivity).
  all: intros f H; first [discriminate H | injection H as <-; reflexivity].
Qed.

(** X11. From an instruction whose [on_commit] is not connected, [commit]
    does one of two things and never both: it sends a configure and arms
    [on_commit] with the serial the request returned, emitting no [ready];
    or it emits [ready] once, sends no configure and leaves [on_commit]
    disconnected.  It waits exactly for a tiling change to other edges
    than the pending ones and for a resize the client did not initiate, on
    a live toplevel. *)
Theorem X11_request_arms_or_signals (c c' : cfg) :
  alive (self c) = true ->
  on_commit_connected (self c) = false ->
  exec Request c = Ok c' ->
  let wait := needs_round_trip (kind (self c)) (view c) in
  on_commit_connected (self c') = wait /\
  count_ev is_ready (log c') =
    (count_ev is_ready (log c) + if wait then 0 else 1)%nat /\
  (wait = true ->
   on_commit_callback (self c') = Some (scheduled_serial (view c)) /\
   (count_ev is_configure (log c) < count_ev is_configure (log c'))%nat) /\
  (wait = false ->
   count_ev is_configure (log c') = count_ev is_configure (log c)).
Proof.
  intros Halive Hconn Hexec.
  destruct c as [[k cb conn hl hs al] v l]. cbn in Halive, Hconn. subst al conn.
  unfold exec in Hexec. cbn in Hexec.
  unfold needs_round_trip. cbn [self kind view log].
  destruct k; exec_simpl_in Hexec; split_step Hexec; injection Hexec as <-.
  all: cbn [self view log on_commit_connected on_commit_callback
            set_connected set_callback set_held_soft_locks negb].
  all: split; [reflexivity |].
  all: split; [count_more; lia |].
  all: split; intros H.
  all: try discriminate H.
  all: first [split; [reflexivity | count_more; lia] | count_more; lia].
Qed.

(** ** Staging and finalizing *)

(** X13. [set_pending] writes the pending state and nothing else of the
    view: the live state, the geometry, the protocol object and the tree
    are untouched; it signals nothing, sends nothing to the client and
    takes no soft lock.  Only the unmap instruction adds something: the
    hard locks. *)
Theorem X13_stage_writes_pending_only (c : cfg) :
  let c' := set_pending c in
  state (view c') = state (view c) /\
  view_geometry (view c') = view_geometry (view c) /\
  xdg_toplevel (view c') = xdg_toplevel (view c) /\
  surfaces (view c') = surfaces (view c) /\
  held_soft_locks (self c') = held_soft_locks (self c) /\
  on_commit_connected (self c') = on_commit_connected (self c) /\
  (forall p, (forall s id, p (ev_lock_pending s id) = false) ->
     count_ev p (log c') = count_ev p (log c)) /\
  (is_unmap (kind (self c)) = false ->
   log c' = log c /\ held_locks (self c') = held_locks (self c)).
Proof.
  destruct c as [[k cb conn hl hs al] v l].
  destruct k; exec_simpl.
  all: do 6 (split; [reflexivity |]).
  all: split; [intros p Hp | intros H].
  all: try reflexivity.
  all: try discriminate H.
  all: try (split; reflexivity).
  rewrite count_ev_app, count_ev_map_none by (intros; apply Hp). lia.
Qed.

(** X10. For the tiling, gravity, map and unmap instructions, staging
    followed by finalizing never faults, with or without a protocol
    object; afterwards the live state holds the staged value, as the
    pending state does, every other field of the live state and the
    geometry of the view are what they were. *)
Theorem X10_stage_then_finalize (c : cfg) :
  alive (self c) = true ->
  is_geometry (kind (self c)) = false ->
  exists c1 c2,
    exec Stage c = Ok c1 /\
    exec Finalize c1 = Ok c2 /\
    staged_value_applied (kind (self c)) (view c2) /\
    other_fields_kept (kind (self c)) (view c) (view c2) /\
    xdg_toplevel (view c2) = xdg_toplevel (view c).
Proof.
  intros Halive Hk.
  destruct c as [[k cb conn hl hs al] v l]. cbn in Halive, Hk. subst al.
  destruct k; try discriminate Hk.
  all: eexists; eexists.
  all: split; [unfold exec; cbn; reflexivity |].
  all: split; [exec_simpl; reflexivity |].
  all: exec_simpl; repeat split; reflexivity.
Qed.

(** ** The gravity instruction *)

Lemma gravity_inv_step (o : op) (c c' : cfg) (g : gravity_t) :
  kind (self c) = xdg_view_gravity_t g ->
  on_commit_connected (self c) = false ->
  held_locks (self c) = ∅ ->
  held_soft_locks (self c) = ∅ ->
  count_ev is_lock_event (log c) = O ->
  exec o c = Ok c' ->
  kind (self c') = xdg_view_gravity_t g /\
  on_commit_connected (self c') = false /\
  held_locks (self c') = ∅ /\
  held_soft_locks (self c') = ∅ /\
  count_ev is_lock_event (log c') = O.
Proof.
  intros Hk Hconn Hhl Hhs Hcount Hexec.
  destruct c as [[k cb conn hl hs al] v l].
  cbn in Hk, Hconn, Hhl, Hhs, Hcount. subst k conn hl hs.
  destruct o; unfold exec in Hexec; cbn in Hexec.
  all: exec_simpl_in Hexec; split_step Hexec; injection Hexec as <-; cbn.
  all: rewrite ?map_to_list_empty.
  all: repeat (split; [reflexivity |]).
  all: count_more; try exact Hcount; lia.
Qed.

(** X12. The gravity instruction never locks anything: whatever is done to
    it, in whatever order, it calls neither [lock()] nor [unlock()] nor the
    hard-lock functions, both records stay empty, and [on_commit] is never
    connected. *)
Theorem X12_gravity_never_locks (v : wayfire_xdg_view) (g : gravity_t)
    (ops : list op) (c' : cfg) :
  run ops (construct v (ChGravity g)) = Ok c' ->
  count_ev is_lock_event (log c') = O /\
  held_locks (self c') = ∅ /\
  held_soft_locks (self c') = ∅ /\
  on_commit_connected (self c') = false.
Proof.
  assert (Hgen : forall ops c,
             kind (self c) = xdg_view_gravity_t g ->
             on_commit_connected (self c) = false ->
             held_locks (self c) = ∅ ->
             held_soft_locks (self c) = ∅ ->
             count_ev is_lock_event (log c) = O ->
             run ops c = Ok c' ->
             count_ev is_lock_event (log c') = O /\
             held_locks (self c') = ∅ /\
             held_soft_locks (self c') = ∅ /\
             on_commit_connected (self c') = false).
  { clear ops. induction ops as [| o ops IH]; intros c Hk Hconn Hhl Hhs Hcount Hrun;
      cbn in Hrun.
    - injection Hrun as <-. auto.
    - unfold bind in Hrun.
      destruct (exec o c) as [c1 | f] eqn:Hexec; [| discriminate].
      destruct (gravity_inv_step o c c1 g Hk Hconn Hhl Hhs Hcount Hexec)
        as (Hk1 & Hconn1 & Hhl1 & Hhs1 & Hcount1).
      now apply (IH c1). }
  intros Hrun. apply (Hgen ops (construct v (ChGravity g))); try reflexivity.
  exact Hrun.
Qed.

(** ** Soft locks from the request to the destruction *)

Lemma flagged_empty (s : wlr_surface) : flagged ∅ s = O.
Proof. unfold flagged. rewrite lookup_empty. reflexivity. Qed.

Lemma soft_lock_all_notin (l : list wlr_surface) (m : gmap wlr_surface bool)
    (s : wlr_surface) :
  s ∉ l -> soft_lock_all l m !! s = m !! s.
Proof.
  unfold soft_lock_all. revert m.
  induction l as [| a l IH]; intros m Hnot; cbn [fold_left]; [reflexivity |].
  apply not_elem_of_cons in Hnot as [Hne Hnot].
  rewrite IH by exact Hnot. apply lookup_insert_ne. congruence.
Qed.

Lemma flagged_soft_lock_all_empty (l : list wlr_surface) (s : wlr_surface) :
  NoDup l ->
  flagged (soft_lock_all l ∅) s = count_ev (is_base_lock s) (map ev_base_lock l).
Proof.
  intros Hnd. rewrite count_base_lock_map by exact Hnd. unfold flagged.
  destruct (decide (s ∈ l)) as [Hin | Hnin].
  - rewrite soft_lock_all_In by exact Hin. reflexivity.
  - rewrite soft_lock_all_notin by exact Hnin. rewrite lookup_empty. reflexivity.
Qed.

Lemma soft_unlock_all_balance (l : list wlr_surface) (m : gmap wlr_surface bool)
    (s : wlr_surface) :
  (count_ev (is_base_unlock s) (snd (soft_unlock_all l m)) +
   flagged (fst (soft_unlock_all l m)) s)%nat = flagged m s.
Proof.
  rewrite count_base_unlock_soft_unlock_all.
  destruct (decide (s ∈ l)) as [Hin | Hnin].
  - unfold flagged at 2. rewrite soft_unlock_all_sets_false by exact Hin. lia.
  - unfold flagged. rewrite soft_unlock_all_notin by exact Hnin. lia.
Qed.

Ltac solve_soft_balanced Hbal Hnd :=
  let s := fresh "s" in
  intros s; specialize (Hbal s);
  rewrite ?flagged_empty in Hbal;
  count_tail;
  rewrite ?flagged_soft_lock_all_empty by exact Hnd;
  rewrite ?flagged_empty;
  try match goal with
    | |- context [soft_unlock_all ?l ?m] =>
        pose proof (soft_unlock_all_balance l m s)
    end;
  lia.

Lemma soft_balance_init (v : wayfire_xdg_view) (ch : change) :
  client_initiated_change ch = false ->
  NoDup (surfaces v) ->
  soft_balance_inv Created (construct v ch).
Proof.
  intros Hci Hnd. unfold soft_balance_inv, soft_balanced.
  destruct ch as [e | g [|] | g | |]; try discriminate Hci; exec_simpl.
  all: split; [exact Hnd |].
  all: split; [| reflexivity].
  all: intros s; rewrite flagged_empty; reflexivity.
Qed.

Lemma soft_balance_step (p p' : phase) (o : op) (c c' : cfg) :
  soft_balance_inv p c ->
  trees_ok [o] ->
  next_phase p o = Some p' ->
  exec o c = Ok c' ->
  soft_balance_inv p' c'.
Proof.
  intros (Hnd & Hbal & Hph) Htree Hnext Hexec.
  destruct c as [[k cb conn hl hs al] v l].
  unfold soft_balance_inv, soft_balanced in *. cbn in Hnd, Hbal, Hph.
  destruct o.
  - (* Stage *)
    destruct p; cbn in Hnext; try discriminate. injection Hnext as <-.
    cbn in Hph. subst hs.
    unfold exec in Hexec; cbn in Hexec. destruct al; [| discriminate].
    destruct k; exec_simpl_in Hexec; injection Hexec as <-; cbn.
    all: split; [exact Hnd |].
    all: split; [solve_soft_balanced Hbal Hnd | reflexivity].
  - (* Request *)
    destruct p; cbn in Hnext; try discriminate. injection Hnext as <-.
    cbn in Hph. subst hs.
    unfold exec in Hexec; cbn in Hexec. destruct al; [| discriminate].
    destruct k; exec_simpl_in Hexec; split_step Hexec;
      injection Hexec as <-; cbn.
    all: split; [exact Hnd |].
    all: split; [solve_soft_balanced Hbal Hnd | exact I].
  - (* Finalize *)
    destruct p; cbn in Hnext; try discriminate. injection Hnext as <-.
    unfold exec in Hexec; cbn in Hexec. destruct al; [| discriminate].
    destruct k; exec_simpl_in Hexec; split_step Hexec;
      injection Hexec as <-; cbn.
    all: split; [exact Hnd |].
    all: split; [solve_soft_balanced Hbal Hnd | exact I].
  - (* SurfaceCommit *)
    assert (p' = p) as -> by (destruct p; cbn in Hnext; congruence).
    exec_simpl_in Hexec; split_step Hexec; injection Hexec as <-; cbn.
    all: split; [exact Hnd |].
    all: split; [solve_soft_balanced Hbal Hnd |].
    all: destruct p; cbn in Hph |- *; first [exact I | exact Hph].
  - (* Kill *)
    assert (p' = Cancelled) as -> by (destruct p; cbn in Hnext; congruence).
    exec_simpl_in Hexec; split_step Hexec; injection Hexec as <-; cbn.
    all: split; [exact Hnd |].
    all: split; [solve_soft_balanced Hbal Hnd | exact I].
  - (* Destroy *)
    assert (p' = Destroyed) as -> by (destruct p; cbn in Hnext; congruence).
    exec_simpl_in Hexec; split_step Hexec; injection Hexec as <-; cbn.
    split; [exact Hnd |].
    split; [solve_soft_balanced Hbal Hnd | exact I].
  - (* Env *)
    assert (p' = p) as -> by (destruct p; cbn in Hnext; congruence).
    exec_simpl_in Hexec; injection Hexec as <-; cbn.
    cbn in Htree. destruct Htree as [Htree _].
    split; [apply Htree, Hnd |].
    split; [exact Hbal |].
    destruct p; cbn in Hph |- *; exact Hph.
Qed.

Lemma soft_balance_run (ops : list op) (p p' : phase) (c c' : cfg) :
  soft_balance_inv p c ->
  trees_ok ops ->
  lifecycle p ops = Some p' ->
  run ops c = Ok c' ->
  soft_balance_inv p' c'.
Proof.
  revert p c. induction ops as [| o ops IH]; intros p c Hinv Htree Hlife Hrun.
  - cbn in *. congruence.
  - apply trees_ok_cons in Htree as [Ho Htree].
    cbn in Hlife, Hrun. unfold bind in Hrun.
    destruct (next_phase p o) as [p1 |] eqn:Hnext; [| discriminate].
    destruct (exec o c) as [c1 | f] eqn:Hexec; [| discriminate].
    apply (IH p1 c1); try assumption.
    eapply soft_balance_step; eassumption.
Qed.

Lemma trees_fixed_cons (o : op) (ops : list op) :
  trees_fixed (o :: ops) -> trees_fixed [o] /\ trees_fixed ops.
Proof. destruct o; cbn; tauto. Qed.

Lemma trees_fixed_app (ops1 ops2 : list op) :
  trees_fixed (ops1 ++ ops2) -> trees_fixed ops1 /\ trees_fixed ops2.
Proof.
  induction ops1 as [| o ops1 IH]; cbn; [tauto |].
  destruct o; try exact IH. intros [H1 H2]. apply IH in H2. tauto.
Qed.

Lemma fixed_tree_step (o : op) (c c' : cfg) :
  trees_fixed [o] ->
  flags_in_tree c ->
  exec o c = Ok c' ->
  surfaces (view c') = surfaces (view c) /\ flags_in_tree c'.
Proof.
  intros Htree Hflags Hexec.
  destruct c as [[k cb conn hl hs al] v l].
  unfold flags_in_tree in *. cbn in Hflags.
  assert (Hlock : forall s, soft_lock_all (surfaces v) hs !! s = Some true ->
                            s ∈ surfaces v).
  { intros s H. destruct (decide (s ∈ surfaces v)) as [Hin | Hnin]; [exact Hin |].
    rewrite soft_lock_all_notin in H by exact Hnin. now apply Hflags. }
  assert (Hunlock : forall s, fst (soft_unlock_all (surfaces v) hs) !! s = Some true ->
                              s ∈ surfaces v).
  { intros s H. apply Hflags.
    destruct (hs !! s) as [[|]|] eqn:E; [reflexivity | |];
      exfalso; apply (soft_unlock_all_keeps (surfaces v) hs s); congruence. }
  destruct o; unfold exec in Hexec; cbn in Hexec.
  1-3: destruct al; [| discriminate]; destruct k.
  all: exec_simpl_in Hexec; split_step Hexec; injection Hexec as <-; cbn.
  all: try (split; [reflexivity |]; first [exact Hflags | exact Hlock | exact Hunlock]).
  cbn in Htree. destruct Htree as [Htree _].
  split; [apply Htree |]. intros s H. rewrite Htree. now apply Hflags.
Qed.

Lemma fixed_tree_run (ops : list op) (c c' : cfg) :
  trees_fixed ops ->
  flags_in_tree c ->
  run ops c = Ok c' ->
  surfaces (view c') = surfaces (view c) /\ flags_in_tree c'.
Proof.
  revert c. induction ops as [| o ops IH]; intros c Htree Hflags Hrun;
    cbn in Hrun.
  - injection Hrun as <-. auto.
  - apply trees_fixed_cons in Htree as [Ho Htree]. unfold bind in Hrun.
    destruct (exec o c) as [c1 | f] eqn:Hexec; [| discriminate].
    destruct (fixed_tree_step o c c1 Ho Hflags Hexec) as [Hs1 Hf1].
    destruct (IH c1 Htree Hf1 Hrun) as [Hs' Hf'].
    split; [congruence | exact Hf'].
Qed.

Lemma flags_in_tree_init (v : wayfire_xdg_view) (ch : change) :
  flags_in_tree (construct v ch).
Proof.
  unfold flags_in_tree.
  destruct ch as [e | g [|] | g | |]; exec_simpl; intros s H.
  all: try (rewrite lookup_empty in H; discriminate H).
  destruct (decide (s ∈ surfaces v)) as [Hin | Hnin]; [exact Hin |].
  rewrite soft_lock_all_notin in H by exact Hnin.
  rewrite lookup_empty in H. discriminate H.
Qed.

(** C1 (amended). For every variant and every lifecycle that ends with the
    destruction of the instruction, on the ready path as on the cancel
    path: when the instruction is destroyed its record of hard locks is
    empty and every hard lock it acquired on any surface has been released
    (acquisitions and releases balance).  Soft locks are released by
    [finalize()]: on a lifecycle that finalizes, no surface of the tree
    that [finalize()] enumerated is flagged any more and, for an
    instruction that took its soft locks in [request()] only, none of
    these surfaces has a logical lock outstanding; when the tree did not
    change meanwhile, no lock at all is held at the destruction.  (The
    cancel path releases no soft lock.) *)
Theorem C1_locks_released_at_destruction (ch : change) (v : wayfire_xdg_view)
    (ops : list op) (c' : cfg) :
  NoDup (surfaces v) ->
  trees_ok ops ->
  lifecycle Created ops = Some Destroyed ->
  run ops (construct v ch) = Ok c' ->
  held_locks (self c') = ∅ /\
  (forall s, hard_outstanding s (log c') = 0) /\
  (forall pre post c1,
     ops = pre ++ Finalize :: post ->
     run pre (construct v ch) = Ok c1 ->
     (forall s, In s (surfaces (view c1)) ->
        held_soft_locks (self c') !! s <> Some true) /\
     (client_initiated_change ch = false ->
        (forall s, In s (surfaces (view c1)) ->
           soft_outstanding s (log c') = 0) /\
        (trees_fixed ops -> no_lock_held c'))).
Proof.
  intros Hnd Htree Hlife Hrun.
  pose proof (hard_inv_run ops Created Destroyed _ c'
                (hard_inv_init v ch Hnd) Htree Hlife Hrun)
    as (_ & Hbal & _ & Hph).
  destruct Hph as [Hhl _].
  assert (Hhard : forall s, hard_outstanding s (log c') = 0).
  { intros s. unfold hard_outstanding. rewrite (Hbal s), Hhl, recorded_empty. lia. }
  split; [exact Hhl |].
  split; [exact Hhard |].
  intros pre post c1 Hops Hpre.
  assert (Hflags : forall s, In s (surfaces (view c1)) ->
                     held_soft_locks (self c') !! s <> Some true).
  { intros s Hin. subst ops.
    apply run_app in Hrun as (c1' & Hpre' & Hrest).
    rewrite Hpre in Hpre'. injection Hpre' as <-.
    apply lifecycle_app in Hlife as (p1 & Hl1 & Hl2).
    destruct p1; cbn in Hl2; try discriminate Hl2.
    change (run (Finalize :: post) c1)
      with (let* c2 := exec Finalize c1 in run post c2) in Hrest.
    unfold bind in Hrest.
    destruct (exec Finalize c1) as [c2 | f] eqn:Hexec; [| discriminate Hrest].
    rewrite (soft_flags_frozen post Finalized Destroyed c2 c'
               (or_introl eq_refl) Hl2 Hrest).
    apply (finalize_clears_soft_flags c1 c2 s); try assumption.
    apply (soft_inv_run pre (construct v ch) c1); [apply soft_inv_init | exact Hpre]. }
  split; [exact Hflags |].
  intros Hci.
  pose proof (soft_balance_run ops Created Destroyed _ c'
                (soft_balance_init v ch Hci Hnd) Htree Hlife Hrun)
    as (_ & Hsoft & _).
  assert (Hout : forall s, held_soft_locks (self c') !! s <> Some true ->
                   soft_outstanding s (log c') = 0).
  { intros s Hs. unfold soft_outstanding.
    rewrite (Hsoft s), (flagged_false _ s Hs). lia. }
  split.
  - intros s Hin. apply Hout. now apply Hflags.
  - intros Hfixed.
    assert (Hall : forall s, held_soft_locks (self c') !! s <> Some true).
    { intros s Hs.
      destruct (fixed_tree_run ops _ c' Hfixed (flags_in_tree_init v ch) Hrun)
        as [Hsurf' Hin'].
      assert (Hfixed_pre : trees_fixed pre)
        by (rewrite Hops in Hfixed; now apply trees_fixed_app in Hfixed).
      destruct (fixed_tree_run pre _ c1 Hfixed_pre (flags_in_tree_init v ch) Hpre)
        as [Hsurf1 _].
      apply (Hflags s); [| exact Hs].
      apply list_elem_of_In. rewrite Hsurf1, <- Hsurf'. now apply Hin'. }
    unfold no_lock_held.
    split; [exact Hhard |].
    split; [intros s; apply Hout, Hall |].
    split; [exact Hhl | exact Hall].
Qed.

End Instructions.

(** * The properties on sample runs

    The sample view has two surfaces, a frame with a top margin of 30 and
    a live toplevel; [wf::TILED_EDGES_ALL] is 15. *)

Lemma sample_surfaces_nodup : NoDup (surfaces sample_view).
Proof.
  cbn. apply NoDup_cons. split; [| apply NoDup_singleton].
  intros H. apply list_elem_of_In in H. destruct H as [H | []]. discriminate H.
Qed.

(** The matcher at [current = 7], [target = 5]. *)
Lemma C3_acknowledgment_matcher_witness :
  0 <= 7 < 4294967296 /\ 0 <= 5 < 4294967296 /\
  target_achieved 7 5 = true.
Proof.
  assert (H7 : 0 <= 7 < 4294967296) by lia.
  assert (H5 : 0 <= 5 < 4294967296) by lia.
  split; [exact H7 |]. split; [exact H5 |].
  apply (proj1 (C3_acknowledgment_matcher 7 5 H7 H5)).
  change (uint32_max / 2) with 2147483647. lia.
Defined.

(** A tiling request for the edges the toplevel already has. *)
Lemma C9_tiling_noop_witness :
  xdg_toplevel sample_view = Some sample_toplevel /\
  server_pending_tiled sample_toplevel = 0 /\
  exists c,
    run 15 sample_align [Stage; Request] (new_xdg_view_state_t sample_view 0) = Ok c /\
    count_ev is_configure (log c) = O /\
    on_commit_connected (self c) = false.
Proof.
  split; [reflexivity |]. split; [reflexivity |].
  destruct (C9_tiling_noop 15 sample_align sample_view sample_toplevel 0
              eq_refl eq_refl) as (c & Hrun & _ & Hcfg & Hconn & _).
  exists c. auto.
Defined.


(** A staged resize whose protocol object is live finalizes. *)
Lemma C10_finalize_needs_live_toplevel_witness :
  let c := set_pending (new_xdg_view_geometry_t sample_view sample_target false) in
  kind (self c) = xdg_view_geometry_t sample_target (Some 0) false /\
  alive (self c) = true /\
  exists c', exec 15 sample_align Finalize c = Ok c'.
Proof.
  intros c.
  split; [reflexivity |]. split; [reflexivity |].
  apply (proj1 (proj2 (C10_finalize_needs_live_toplevel 15 sample_align c
                         sample_target 0 false eq_refl eq_refl))).
  discriminate.
Defined.

(** An acknowledged resize, from construction to destruction. *)
Lemma C1_locks_released_at_destruction_witness :
  let pre := [Stage; Request; Env (client_ack 42 (mk_box 0 0 400 270));
              SurfaceCommit] in
  let ops := pre ++ [Finalize; Destroy] in
  NoDup (surfaces sample_view) /\
  trees_ok ops /\
  trees_fixed ops /\
  lifecycle Created ops = Some Destroyed /\
  client_initiated_change (ChGeometry sample_target false) = false /\
  exists c',
    run 15 sample_align ops (construct sample_view (ChGeometry sample_target false)) = Ok c' /\
    held_locks (self c') = ∅ /\
    (forall s, hard_outstanding s (log c') = 0) /\
    no_lock_held c'.
Proof.
  intros pre ops.
  assert (Htree : trees_ok ops).
  { cbn. split; [| exact I]. intros v. now rewrite client_ack_surfaces. }
  assert (Hfixed : trees_fixed ops).
  { cbn. split; [| exact I]. intros v. apply client_ack_surfaces. }
  assert (Hrun : { c' | run 15 sample_align ops
                          (construct sample_view (ChGeometry sample_target false))
                        = Ok c' })
    by (eexists; vm_compute; reflexivity).
  assert (Hpre : { c1 | run 15 sample_align pre
                          (construct sample_view (ChGeometry sample_target false))
                        = Ok c1 })
    by (eexists; vm_compute; reflexivity).
  destruct Hrun as [c' Hrun]. destruct Hpre as [c1 Hpre].
  split; [exact sample_surfaces_nodup |]. split; [exact Htree |].
  split; [exact Hfixed |]. split; [reflexivity |]. split; [reflexivity |].
  exists c'. split; [exact Hrun |].
  destruct (C1_locks_released_at_destruction 15 sample_align
              (ChGeometry sample_target false) sample_view ops c'
              sample_surfaces_nodup Htree eq_refl Hrun) as (H1 & H2 & H3).
  destruct (H3 pre [Destroy] c1 eq_refl Hpre) as (_ & H4).
  destruct (H4 eq_refl) as (_ & H5).
  split; [exact H1 |]. split; [exact H2 |]. exact (H5 Hfixed).
Defined.

(** The hook firing on a requested, unacknowledged resize. *)
Lemma C2_kill_emits_cancel_only_witness :
  exists c,
    run 15 sample_align [Stage; Request]
        (new_xdg_view_geometry_t sample_view sample_target false) = Ok c /\
    alive (self c) = true /\
    count_ev is_ready (log c) = O /\
    exists c1,
      exec 15 sample_align Kill c = Ok c1 /\
      log c1 = log c ++ [cancel_event] /\
      on_commit_connected (self c1) = false.
Proof.
  assert (Hrun : { c | run 15 sample_align [Stage; Request]
                         (new_xdg_view_geometry_t sample_view sample_target false)
                       = Ok c /\
                       alive (self c) = true /\
                       count_ev is_ready (log c) = O })
    by (eexists; split; [vm_compute; reflexivity |];
        split; vm_compute; reflexivity).
  destruct Hrun as (c & Hrun & Halive & Hready).
  exists c. split; [exact Hrun |]. split; [exact Halive |]. split; [exact Hready |].
  destruct (C2_kill_emits_cancel_only 15 sample_align c Halive Hready)
    as (c1 & Hk & Hlog & Hconn & _).
  exists c1. auto.
Defined.

(** An acknowledged tiling change, from construction to destruction. *)
Lemma C4_final_size_then_ready_witness :
  let ops := [Stage; Request; Env (client_ack 42 (mk_box 0 0 800 570));
              SurfaceCommit; Finalize; Destroy] in
  ChState 15 <> ChUnmap /\
  lifecycle Created ops = Some Destroyed /\
  exists c',
    run 15 sample_align ops (construct sample_view (ChState 15)) = Ok c' /\
    count_ev is_final_size (log c') = count_ev is_ready (log c') /\
    (count_ev is_ready (log c') <= 1)%nat /\
    ready_follows_final_size (log c').
Proof.
  intros ops.
  assert (Hne : ChState 15 <> ChUnmap) by discriminate.
  assert (Hrun : { c' | run 15 sample_align ops (construct sample_view (ChState 15))
                        = Ok c' })
    by (eexists; vm_compute; reflexivity).
  destruct Hrun as [c' Hrun].
  split; [exact Hne |]. split; [reflexivity |].
  exists c'. split; [exact Hrun |].
  destruct (C4_final_size_then_ready 15 sample_align (ChState 15) sample_view
              ops Destroyed c' Hne eq_refl Hrun) as (H1 & H2 & H3 & _).
  auto.
Defined.

(** ** Where the code departs from the specification *)

(** C1, as stated, fails: a resize that is requested and then cancelled by
    the destruction of the view is destroyed with the soft locks of both
    surfaces still held. *)
Lemma C1_counterexample :
  let ops := [Stage; Request; Kill; Destroy] in
  lifecycle Created ops = Some Destroyed /\
  exists c,
    run 15 sample_align ops (construct sample_view (ChGeometry sample_target false)) = Ok c /\
    soft_outstanding 1%positive (log c) = 1 /\
    held_soft_locks (self c) !! 1%positive = Some true /\
    ~ no_lock_held c.
Proof.
  intros ops. split; [reflexivity |].
  eexists. split; [vm_compute; reflexivity |].
  split; [vm_compute; reflexivity |]. split; [vm_compute; reflexivity |].
  intros (_ & Hsoft & _). specialize (Hsoft 1%positive).
  vm_compute in Hsoft. discriminate Hsoft.
Qed.

(** C2, as stated, fails: after the hook has fired on a requested,
    unacknowledged resize, [cancel] was emitted once and [ready] never, but
    the hook has released nothing: the soft locks taken by [request()] are
    still held. *)
Lemma C2_counterexample :
  exists c,
    run 15 sample_align [Stage; Request; Kill]
        (new_xdg_view_geometry_t sample_view sample_target false) = Ok c /\
    count_ev is_cancel (log c) = 1%nat /\
    count_ev is_ready (log c) = O /\
    count_ev (is_base_unlock 1%positive) (log c) = O /\
    held_soft_locks (self c) !! 1%positive = Some true /\
    ~ no_lock_held c.
Proof.
  eexists. split; [vm_compute; reflexivity |].
  split; [vm_compute; reflexivity |]. split; [vm_compute; reflexivity |].
  split; [vm_compute; reflexivity |]. split; [vm_compute; reflexivity |].
  intros (_ & Hsoft & _). specialize (Hsoft 1%positive).
  vm_compute in Hsoft. discriminate Hsoft.
Qed.

(** C4, as stated, fails for the unmap instruction: its [request()] emits
    [ready] and no [final-size]. *)
Lemma C4_counterexample :
  exists c,
    run 15 sample_align [Stage; Request] (new_xdg_view_unmap_t sample_view) = Ok c /\
    count_ev is_ready (log c) = 1%nat /\
    count_ev is_final_size (log c) = O /\
    ~ ready_follows_final_size (log c).
Proof.
  eexists. split; [vm_compute; reflexivity |].
  split; [vm_compute; reflexivity |]. split; [vm_compute; reflexivity |].
  intros H.
  destruct (H [ev_take_ref; ev_connect_kill;
               ev_lock_pending 1%positive 7; ev_lock_pending 2%positive 7] []
              eq_refl) as (l0 & d & Heq).
  apply (f_equal (@rev event)) in Heq. rewrite rev_app_distr in Heq.
  discriminate Heq.
Qed.

(** C5, evaluated on the code: a client-initiated geometry instruction
    locks the tree in its constructor and again in [request()]; the logical
    lock of each surface is invoked twice, and [finalize()] unlocks once. *)
Theorem C5_soft_lock_invoked_twice :
  exists c0 c1 c2,
    c0 = new_xdg_view_geometry_t sample_view sample_target true /\
    count_ev (is_base_lock 1%positive) (log c0) = 1%nat /\
    held_soft_locks (self c0) !! 1%positive = Some true /\
    run 15 sample_align [Stage; Request] c0 = Ok c1 /\
    count_ev (is_base_lock 1%positive) (log c1) = 2%nat /\
    run 15 sample_align [Finalize; Destroy] c1 = Ok c2 /\
    soft_outstanding 1%positive (log c2) = 1.
Proof.
  eexists. eexists. eexists.
  split; [reflexivity |].
  split; [vm_compute; reflexivity |]. split; [vm_compute; reflexivity |].
  split; [vm_compute; reflexivity |]. split; [vm_compute; reflexivity |].
  split; [vm_compute; reflexivity |]. vm_compute. reflexivity.
Qed.

(** ** The further properties on sample inputs *)

(** Serial 3, reached after the counter wrapped, against the request
    4294967290. *)
Lemma X1_matcher_modular_window_witness :
  0 <= 3 < 4294967296 /\ 0 <= 4294967290 < 4294967296 /\ 3 <> 0 /\
  target_achieved 3 4294967290 = true.
Proof.
  assert (H1 : 0 <= 3 < 4294967296) by lia.
  assert (H2 : 0 <= 4294967290 < 4294967296) by lia.
  assert (H3 : 3 <> 0) by discriminate.
  split; [exact H1 |]. split; [exact H2 |]. split; [exact H3 |].
  apply (proj1 (X1_matcher_modular_window 3 4294967290 H1 H2 H3)).
  reflexivity.
Defined.

Lemma X2_matcher_antisymmetric_witness :
  0 <= 7 < 4294967296 /\ 0 <= 5 < 4294967296 /\ 7 <> 5 /\
  target_achieved 7 5 = true /\
  target_achieved 5 7 = false.
Proof.
  assert (H1 : 0 <= 7 < 4294967296) by lia.
  assert (H2 : 0 <= 5 < 4294967296) by lia.
  assert (H3 : 7 <> 5) by discriminate.
  assert (H4 : target_achieved 7 5 = true) by reflexivity.
  split; [exact H1 |]. split; [exact H2 |]. split; [exact H3 |].
  split; [exact H4 |].
  exact (X2_matcher_antisymmetric 7 5 H1 H2 H3 H4).
Defined.

(** Three commits of the client on a requested resize that it has not
    acknowledged. *)
Lemma X3_commits_before_acknowledgment_witness :
  exists c,
    run 15 sample_align [Stage; Request]
        (new_xdg_view_geometry_t sample_view sample_target false) = Ok c /\
    on_commit_connected (self c) = true /\
    on_commit_callback (self c) = Some 42 /\
    xdg_toplevel (view c) = Some sample_toplevel /\
    target_achieved (configure_serial (base sample_toplevel)) 42 = false /\
    run 15 sample_align (List.repeat SurfaceCommit 3) c =
    Ok (mk_cfg (self c) (view c)
               (log c ++ concat (List.repeat (frame_hint (view c)) 3))).
Proof.
  assert (Hrun : { c | run 15 sample_align [Stage; Request]
                         (new_xdg_view_geometry_t sample_view sample_target false)
                       = Ok c /\
                       on_commit_connected (self c) = true /\
                       on_commit_callback (self c) = Some 42 /\
                       xdg_toplevel (view c) = Some sample_toplevel })
    by (eexists; split; [vm_compute; reflexivity |];
        split; [vm_compute; reflexivity |];
        split; vm_compute; reflexivity).
  destruct Hrun as (c & Hrun & Hconn & Hcb & Htl).
  assert (Hno : target_achieved (configure_serial (base sample_toplevel)) 42 = false)
    by reflexivity.
  exists c. repeat (split; [assumption |]).
  exact (X3_commits_before_acknowledgment 15 sample_align 3 c 42 sample_toplevel
           Hconn Hcb Htl Hno).
Defined.

Lemma X6_lock_unlock_tree_balanced_witness :
  let c := new_xdg_view_map_t sample_view in
  NoDup (surfaces (view c)) /\
  soft_outstanding 1%positive (log (unlock_tree (lock_tree c))) =
  soft_outstanding 1%positive (log c).
Proof.
  intros c. split; [exact sample_surfaces_nodup |].
  exact (proj1 (X6_lock_unlock_tree_balanced c 1%positive sample_surfaces_nodup)).
Defined.

Lemma X7_hard_lock_round_trip_witness :
  let c := new_xdg_view_unmap_t sample_view in
  NoDup (surfaces (view c)) /\
  held_locks (self c) = ∅ /\
  held_locks (self (unlock_tree_wlr (lock_tree_wlr c))) = ∅ /\
  (forall s, hard_outstanding s (log (unlock_tree_wlr (lock_tree_wlr c))) =
             hard_outstanding s (log c)).
Proof.
  intros c.
  split; [exact sample_surfaces_nodup |]. split; [reflexivity |].
  destruct (X7_hard_lock_round_trip c sample_surfaces_nodup eq_refl)
    as (H1 & H2 & _).
  split; [exact H1 | exact H2].
Defined.

Lemma X8_hard_lock_twice_leaks_witness :
  let c := new_xdg_view_unmap_t sample_view in
  NoDup (surfaces (view c)) /\
  held_locks (self c) = ∅ /\
  hard_outstanding 1%positive
    (log (unlock_tree_wlr (lock_tree_wlr (lock_tree_wlr c)))) =
  hard_outstanding 1%positive (log c) + 1.
Proof.
  intros c.
  split; [exact sample_surfaces_nodup |]. split; [reflexivity |].
  exact (proj2 (X8_hard_lock_twice_leaks c 1%positive sample_surfaces_nodup eq_refl)).
Defined.

Lemma X9_request_faults_iff_null_toplevel_witness :
  let c := new_xdg_view_map_t (set_xdg_toplevel None sample_view) in
  alive (self c) = true /\
  exec 15 sample_align Request c = Crash NullDeref.
Proof.
  intros c. split; [reflexivity |].
  apply (proj1 (X9_request_faults_iff_null_toplevel 15 sample_align c eq_refl)).
  split; reflexivity.
Defined.

Lemma X10_stage_then_finalize_witness :
  let c := new_xdg_view_state_t (set_xdg_toplevel None sample_view) 15 in
  alive (self c) = true /\
  is_geometry (kind (self c)) = false /\
  exists c1 c2,
    exec 15 sample_align Stage c = Ok c1 /\
    exec 15 sample_align Finalize c1 = Ok c2 /\
    staged_value_applied (kind (self c)) (view c2).
Proof.
  intros c. split; [reflexivity |]. split; [reflexivity |].
  destruct (X10_stage_then_finalize 15 sample_align c eq_refl eq_refl)
    as (c1 & c2 & H1 & H2 & H3 & _).
  exists c1, c2. auto.
Defined.

(** A tiling change to all edges of the sample view, whose pending edges
    are 0: the request waits for the client. *)
Lemma X11_request_arms_or_signals_witness :
  let c := set_pending (new_xdg_view_state_t sample_view 15) in
  alive (self c) = true /\
  on_commit_connected (self c) = false /\
  exists c',
    exec 15 sample_align Request c = Ok c' /\
    on_commit_connected (self c') = true /\
    count_ev is_ready (log c') = count_ev is_ready (log c).
Proof.
  intros c.
  assert (Hrun : { c' | exec 15 sample_align Request c = Ok c' })
    by (eexists; vm_compute; reflexivity).
  destruct Hrun as [c' Hrun].
  split; [reflexivity |]. split; [reflexivity |].
  exists c'. split; [exact Hrun |].
  destruct (X11_request_arms_or_signals 15 sample_align c c' eq_refl eq_refl Hrun)
    as (H1 & H2 & _).
  split; [exact H1 |].
  rewrite H2. reflexivity.
Defined.

Lemma X12_gravity_never_locks_witness :
  exists c',
    run 15 sample_align [Stage; Request; Finalize; Destroy]
        (construct sample_view (ChGravity 3)) = Ok c' /\
    count_ev is_lock_event (log c') = O /\
    held_locks (self c') = ∅ /\
    held_soft_locks (self c') = ∅ /\
    on_commit_connected (self c') = false.
Proof.
  assert (Hrun : { c' | run 15 sample_align [Stage; Request; Finalize; Destroy]
                          (construct sample_view (ChGravity 3)) = Ok c' })
    by (eexists; vm_compute; reflexivity).
  destruct Hrun as [c' Hrun].
  exists c'. split; [exact Hrun |].
  exact (X12_gravity_never_locks 15 sample_align sample_view 3
           [Stage; Request; Finalize; Destroy] c' Hrun).
Defined.
